(** * Asset-transfer chaincode (fabric/assetTransfer.js)

    A shallow embedding of the [AssetTransfer] contract and of the
    JavaScript pieces it calls, with the properties of its specification.

    Conventions of the embedding.
    - A text is a [string]: the sequence of the UTF-8 bytes of a
      JavaScript string.  [Buffer.from] and [toString] convert between a
      text and those bytes and are inverse of each other on them, so the
      world state keeps the text itself.
    - JavaScript numbers are IEEE doubles.  Their arithmetic is not used
      by the contract: it only converts them from and to texts.  These
      conversions are an interface ([NumberModel]) whose laws are the
      ones ECMAScript guarantees; a model of it over the integers
      ([ZNumbers]) runs the examples of the specification.
    - A JavaScript object is the list of its own properties in
      enumeration order ([VObj]); a thrown exception is an [error]. *)

From Stdlib Require Import ZArith Ascii String DecimalString DecimalZ.
From stdpp Require Import gmap strings list sorting.

#[local] Set Warnings "-register-all".

(** ** Characters and JSON numerals *)

Definition quote_char : ascii := "034"%char.
Definition backslash : ascii := "\"%char.

Definition is_digit (c : ascii) : bool :=
  let n := N_of_ascii c in (48 <=? n)%N && (n <=? 57)%N.

(** ECMAScript JSON white space: tab, line feed, carriage return, space. *)
Definition is_json_ws (c : ascii) : bool :=
  let n := N_of_ascii c in
  (n =? 9)%N || (n =? 10)%N || (n =? 13)%N || (n =? 32)%N.

(** The characters a JSON numeral is made of. *)
Definition is_num_char (c : ascii) : bool :=
  is_digit c ||
  match c with
  | "-"%char | "+"%char | "."%char | "e"%char | "E"%char => true
  | _ => false
  end.

Fixpoint skip_digits (s : string) : string :=
  match s with
  | String c r => if is_digit c then skip_digits r else s
  | EmptyString => s
  end.

Definition num_sign (s : string) : string :=
  match s with
  | String "-"%char r => r
  | _ => s
  end.

(** Integer part: [0] or a digit [1-9] followed by digits. *)
Definition num_int (s : string) : option string :=
  match s with
  | String "0"%char r => Some r
  | String c r => if is_digit c then Some (skip_digits r) else None
  | EmptyString => None
  end.

(** Optional fraction: [.] and at least one digit. *)
Definition num_frac (s : string) : option string :=
  match s with
  | String "."%char (String c r) =>
      if is_digit c then Some (skip_digits r) else None
  | String "."%char EmptyString => None
  | _ => Some s
  end.

Definition exp_digits (s : string) : option string :=
  match s with
  | String c r => if is_digit c then Some (skip_digits r) else None
  | EmptyString => None
  end.

(** Optional exponent: [e] or [E], an optional sign, at least one digit. *)
Definition num_exp (s : string) : option string :=
  match s with
  | String "e"%char r | String "E"%char r =>
      match r with
      | String "+"%char r' | String "-"%char r' => exp_digits r'
      | _ => exp_digits r
      end
  | _ => Some s
  end.

(** The JSON grammar of numbers: an optional minus sign, the integer
    part, an optional fraction and an optional exponent, nothing else. *)
Definition json_numeral (s : string) : bool :=
  match num_int (num_sign s) with
  | Some r1 =>
      match num_frac r1 with
      | Some r2 =>
          match num_exp r2 with
          | Some EmptyString => true
          | _ => false
          end
      | None => false
      end
  | None => false
  end.

(** Decimal text of an integer, as JavaScript prints one. *)
Definition dec_of_Z (z : Z) : string :=
  NilZero.string_of_int (Z.to_int z).

(** ** The numeric interface

    [Number] is the conversion of a text to a number; [num_lit] the value
    of an integer literal of the source; [num_json n] the text
    [JSON.stringify] writes for [n] when it is finite, and [None] for
    [NaN] and the infinities, which it writes [null]; [num_read] the
    value [JSON.parse] gives to a numeral.  The laws: the text of a
    finite number is a JSON numeral and reads back as that number, and a
    safe integer literal is written in decimal.  The two zeros are one
    number here, as they are for [===]. *)
Class NumberModel := {
  number : Type;
  num_lit : Z → number;
  Number : string → number;
  num_json : number → option string;
  num_read : string → number;
  num_json_numeral n t : num_json n = Some t → json_numeral t = true;
  num_read_json n t : num_json n = Some t → num_read t = n;
  num_lit_json z :
    (Z.abs z < 2 ^ 53)%Z → num_json (num_lit z) = Some (dec_of_Z z)
}.

(** ** A model of the interface: the integers and NaN

    [Number] reads an optional minus sign followed by decimal digits;
    every other text is NaN here.  The examples of the specification run
    on this model. *)

Inductive znumber :=
| ZInt (z : Z)
| ZNaN.

Definition znum_read (t : string) : znumber :=
  match NilZero.int_of_string t with
  | Some d => ZInt (Z.of_int d)
  | None => ZNaN
  end.

Definition znum_json (n : znumber) : option string :=
  match n with
  | ZInt z => Some (dec_of_Z z)
  | ZNaN => None
  end.

Lemma skip_digits_uint d : skip_digits (NilEmpty.string_of_uint d) = "".
Proof. induction d; simpl; auto. Qed.

Lemma unorm_head d :
  Decimal.unorm d = Decimal.zero ∨
  match Decimal.unorm d with
  | Decimal.Nil | Decimal.D0 _ => False
  | _ => True
  end.
Proof. induction d; simpl; auto. Qed.

Lemma pos_to_uint_head p :
  match Pos.to_uint p with
  | Decimal.Nil | Decimal.D0 _ => False
  | _ => True
  end.
Proof.
  pose proof (DecimalPos.Unsigned.to_of (Pos.to_uint p)) as E.
  rewrite DecimalPos.Unsigned.of_to in E. simpl in E.
  destruct (unorm_head (Pos.to_uint p)) as [Hz | Hh].
  - rewrite <- E in Hz. by apply DecimalPos.Unsigned.to_uint_nonzero in Hz.
  - by rewrite <- E in Hh.
Qed.

Lemma json_numeral_uint d :
  match d with
  | Decimal.Nil | Decimal.D0 _ => False
  | _ => True
  end →
  json_numeral (NilZero.string_of_uint d) = true ∧
  json_numeral (String "-" (NilZero.string_of_uint d)) = true.
Proof.
  destruct d; try done; intros _; unfold json_numeral; simpl;
    rewrite skip_digits_uint; done.
Qed.

Lemma json_numeral_dec z : json_numeral (dec_of_Z z) = true.
Proof.
  unfold dec_of_Z. destruct z as [|p|p]; simpl; [done|..];
    by destruct (json_numeral_uint _ (pos_to_uint_head p)).
Qed.

Lemma znum_read_dec z : znum_read (dec_of_Z z) = ZInt z.
Proof.
  unfold znum_read, dec_of_Z. rewrite NilZero.isi.
  - by rewrite DecimalZ.of_to.
  - destruct z; simpl; try done.
    intros [= E]. by apply DecimalPos.Unsigned.to_uint_nonnil in E.
  - destruct z; simpl; try done.
    intros [= E]. by apply DecimalPos.Unsigned.to_uint_nonnil in E.
Qed.

Program Definition ZNumbers : NumberModel := {|
  number := znumber;
  num_lit := ZInt;
  Number := znum_read;
  num_json := znum_json;
  num_read := znum_read
|}.
Next Obligation. intros [z|] t [= <-]. apply json_numeral_dec. Qed.
Next Obligation. intros [z|] t [= <-]. apply znum_read_dec. Qed.
Next Obligation. done. Qed.

Section Contract.
Context `{NM : NumberModel}.

(** ** JavaScript values *)

#[local] Unset Elimination Schemes.
Inductive value :=
| VNull
| VBool (b : bool)
| VNum (n : number)
| VStr (s : string)
| VArr (items : list value)
| VObj (fields : list (string * value)).
#[local] Set Elimination Schemes.

(** Induction over a value and the values inside it. *)
Definition value_ind (P : value → Prop)
  (Hnull : P VNull) (Hbool : ∀ b, P (VBool b)) (Hnum : ∀ n, P (VNum n))
  (Hstr : ∀ s, P (VStr s))
  (Harr : ∀ items, Forall P items → P (VArr items))
  (Hobj : ∀ fields, Forall (λ kv, P kv.2) fields → P (VObj fields))
  : ∀ v, P v :=
  fix go (v : value) : P v :=
    match v with
    | VNull => Hnull
    | VBool b => Hbool b
    | VNum n => Hnum n
    | VStr s => Hstr s
    | VArr items =>
        Harr items
          ((fix all (l : list value) : Forall P l :=
              match l with
              | [] => List.Forall_nil _
              | x :: l' => List.Forall_cons _ _ _ (go x) (all l')
              end) items)
    | VObj fields =>
        Hobj fields
          ((fix all (l : list (string * value))
              : Forall (λ kv, P kv.2) l :=
              match l with
              | [] => List.Forall_nil _
              | kv :: l' => List.Forall_cons _ _ _ (go kv.2) (all l')
              end) fields)
    end.

(** *** Own properties of an object *)

Fixpoint obj_get (k : string) (fields : list (string * value)) : option value :=
  match fields with
  | [] => None
  | (k', v) :: rest => if decide (k' = k) then Some v else obj_get k rest
  end.

Fixpoint all_digits (s : string) : bool :=
  match s with
  | String c r => is_digit c && all_digits r
  | EmptyString => true
  end.

Fixpoint digits_value (acc : N) (s : string) : N :=
  match s with
  | String c r => digits_value (acc * 10 + (N_of_ascii c - 48))%N r
  | EmptyString => acc
  end.

(** An array index: the canonical decimal text of an integer below
    [2^32 - 1].  Such keys are enumerated first, in numeric order. *)
Definition is_array_index (k : string) : bool :=
  match k with
  | EmptyString => false
  | String "0"%char EmptyString => true
  | String "0"%char _ => false
  | _ => all_digits k && (String.length k <=? 10)%nat
         && (digits_value 0 k <? 4294967295)%N
  end.

Fixpoint obj_replace (k : string) (v : value) (fields : list (string * value))
  : list (string * value) :=
  match fields with
  | [] => []
  | (k', v') :: rest =>
      if decide (k' = k) then (k, v) :: rest
      else (k', v') :: obj_replace k v rest
  end.

Fixpoint obj_insert_index (k : string) (v : value)
  (fields : list (string * value)) : list (string * value) :=
  match fields with
  | [] => [(k, v)]
  | (k', v') :: rest =>
      if is_array_index k' && (digits_value 0 k' <? digits_value 0 k)%N
      then (k', v') :: obj_insert_index k v rest
      else (k, v) :: fields
  end.

(** [o[k] = v]: an existing property keeps its place; a new one goes
    after the others, an array index among the indices. *)
Definition obj_set (k : string) (v : value) (fields : list (string * value))
  : list (string * value) :=
  match obj_get k fields with
  | Some _ => obj_replace k v fields
  | None =>
      if is_array_index k then obj_insert_index k v fields
      else fields ++ [(k, v)]
  end.

(** ** [JSON.stringify] *)

Definition hex_digit (n : N) : ascii :=
  if (n <? 10)%N then ascii_of_N (48 + n) else ascii_of_N (87 + n).

Definition escape_char (c : ascii) : string :=
  let n := N_of_ascii c in
  if (n =? 34)%N then String backslash (String quote_char "")
  else if (n =? 92)%N then String backslash (String backslash "")
  else if (n =? 8)%N then String backslash "b"
  else if (n =? 9)%N then String backslash "t"
  else if (n =? 10)%N then String backslash "n"
  else if (n =? 12)%N then String backslash "f"
  else if (n =? 13)%N then String backslash "r"
  else if (n <? 32)%N then
    String backslash
      (String "u" (String "0" (String "0"
        (String (hex_digit (n / 16)%N)
           (String (hex_digit (n mod 16)%N) "")))))
  else String c "".

Fixpoint escape (s : string) : string :=
  match s with
  | String c r => escape_char c +:+ escape r
  | EmptyString => ""
  end.

Definition quote (s : string) : string :=
  String quote_char (escape s +:+ String quote_char "").

Fixpoint join_comma (parts : list string) : string :=
  match parts with
  | [] => ""
  | [p] => p
  | p :: rest => p +:+ "," +:+ join_comma rest
  end.

Definition member_text (k : string) (t : string) : string :=
  quote k +:+ ":" +:+ t.

(** Objects are written in enumeration order, without white space. *)
Fixpoint JSON_stringify (v : value) : string :=
  match v with
  | VNull => "null"
  | VBool true => "true"
  | VBool false => "false"
  | VNum n => default "null" (num_json n)
  | VStr s => quote s
  | VArr items => "[" +:+ join_comma (map JSON_stringify items) +:+ "]"
  | VObj fields =>
      "{" +:+
      join_comma (map (λ kv, member_text kv.1 (JSON_stringify kv.2)) fields)
      +:+ "}"
  end.

(** ** The encoder: [sort-keys-recursive] and [json-stringify-deterministic] *)

(** The record of a list of properties in sorted order: the sorted
    names, each with the value it has in the list. *)
Definition sorted_fields (fields : list (string * value))
  : list (string * value) :=
  map (λ k, (k, default VNull (obj_get k fields)))
      (merge_sort String.le (map fst fields)).

(** Modelled from the spec: the npm package [sort-keys-recursive] is not
    part of the sources.  It "recursively sorts all mapping keys at every
    nesting level into ascending alphabetical order (byte/codepoint
    order), producing a new, order-normalized structure": the keys are
    sorted and each key is given the normalized value it had. *)
Fixpoint sortKeysRecursive (v : value) : value :=
  match v with
  | VArr items => VArr (map sortKeysRecursive items)
  | VObj fields =>
      VObj (sorted_fields
              (map (λ kv, (kv.1, sortKeysRecursive kv.2)) fields))
  | _ => v
  end.

(** Modelled from the spec: the npm package [json-stringify-deterministic]
    is not part of the sources.  It "serializes the normalized structure
    using a compact, deterministic text encoding": [JSON.stringify]
    with the keys of every object taken in sorted order. *)
Definition stringify (v : value) : string :=
  JSON_stringify (sortKeysRecursive v).

(** [stringify(sortKeysRecursive(asset))], the text every write stores. *)
Definition encode (v : value) : string :=
  stringify (sortKeysRecursive v).

(** ** [JSON.parse] *)

Inductive presult (A : Type) :=
| POk (a : A) (rest : string)
| PErr
| PFuel.
Arguments POk {A} a rest.
Arguments PErr {A}.
Arguments PFuel {A}.

Fixpoint skip_ws (s : string) : string :=
  match s with
  | String c r => if is_json_ws c then skip_ws r else s
  | EmptyString => s
  end.

Fixpoint num_span (s : string) : string * string :=
  match s with
  | String c r =>
      if is_num_char c
      then let '(a, b) := num_span r in (String c a, b)
      else (EmptyString, s)
  | EmptyString => (EmptyString, EmptyString)
  end.

Fixpoint strip_prefix (p s : string) : option string :=
  match p, s with
  | EmptyString, _ => Some s
  | String a p', String b s' =>
      if decide (a = b) then strip_prefix p' s' else None
  | String _ _, EmptyString => None
  end.

Definition hex_value (c : ascii) : option N :=
  let n := N_of_ascii c in
  if (48 <=? n)%N && (n <=? 57)%N then Some (n - 48)%N
  else if (97 <=? n)%N && (n <=? 102)%N then Some (n - 87)%N
  else if (65 <=? n)%N && (n <=? 70)%N then Some (n - 55)%N
  else None.

Definition hex4 (a b c d : ascii) : option N :=
  match hex_value a, hex_value b, hex_value c, hex_value d with
  | Some x, Some y, Some z, Some w =>
      Some (((x * 16 + y) * 16 + z) * 16 + w)%N
  | _, _, _, _ => None
  end.

Definition is_high_surrogate (u : N) : bool :=
  (55296 <=? u)%N && (u <=? 56319)%N.
Definition is_low_surrogate (u : N) : bool :=
  (56320 <=? u)%N && (u <=? 57343)%N.

(** UTF-8 bytes of a code point. *)
Definition utf8 (n : N) : string :=
  let cont x := ascii_of_N (128 + x mod 64)%N in
  if (n <? 128)%N then String (ascii_of_N n) ""
  else if (n <? 2048)%N then
    String (ascii_of_N (192 + n / 64)%N) (String (cont n) "")
  else if (n <? 65536)%N then
    String (ascii_of_N (224 + n / 4096)%N)
      (String (cont (n / 64)%N) (String (cont n) ""))
  else
    String (ascii_of_N (240 + n / 262144)%N)
      (String (cont (n / 4096)%N)
         (String (cont (n / 64)%N) (String (cont n) ""))).

(** A lone surrogate has no UTF-8 form: it is read as U+FFFD, which is
    what [Buffer.from] writes for one. *)
Definition replacement : string := utf8 65533.

Definition flush (pending : option N) : string :=
  match pending with
  | Some _ => replacement
  | None => ""
  end.

Definition simple_escape (e : ascii) : option ascii :=
  let n := N_of_ascii e in
  if (n =? 34)%N then Some quote_char
  else if (n =? 92)%N then Some backslash
  else if (n =? 47)%N then Some "/"%char
  else if (n =? 98)%N then Some (ascii_of_N 8)
  else if (n =? 102)%N then Some (ascii_of_N 12)
  else if (n =? 110)%N then Some (ascii_of_N 10)
  else if (n =? 114)%N then Some (ascii_of_N 13)
  else if (n =? 116)%N then Some (ascii_of_N 9)
  else None.

Definition prepend (p : string) (r : option (string * string))
  : option (string * string) :=
  match r with
  | Some (s, rest) => Some (p +:+ s, rest)
  | None => None
  end.

(** The characters of a string literal after its opening quote, and the
    text after its closing quote.  [pending] is a high surrogate read
    from a [\u] escape and waiting for its low surrogate. *)
Fixpoint read_string (pending : option N) (s : string)
  : option (string * string) :=
  match s with
  | EmptyString => None
  | String c r =>
      if decide (c = quote_char) then Some (flush pending, r)
      else if decide (c = backslash) then
        match r with
        | String "u"%char (String x1 (String x2 (String x3 (String x4 r')))) =>
            match hex4 x1 x2 x3 x4 with
            | Some u =>
                if is_high_surrogate u
                then prepend (flush pending) (read_string (Some u) r')
                else if is_low_surrogate u then
                  match pending with
                  | Some h =>
                      prepend
                        (utf8 (65536 + (h - 55296) * 1024 + (u - 56320))%N)
                        (read_string None r')
                  | None => prepend replacement (read_string None r')
                  end
                else prepend (flush pending +:+ utf8 u) (read_string None r')
            | None => None
            end
        | String e r' =>
            match simple_escape e with
            | Some ch =>
                prepend (flush pending +:+ String ch "") (read_string None r')
            | None => None
            end
        | EmptyString => None
        end
      else if (N_of_ascii c <? 32)%N then None
      else prepend (flush pending +:+ String c "") (read_string None r)
  end.

Definition parse_number (s : string) : presult value :=
  let '(lexeme, rest) := num_span s in
  if json_numeral lexeme then POk (VNum (num_read lexeme)) rest else PErr.

Definition parse_literal (lit : string) (v : value) (s : string)
  : presult value :=
  match strip_prefix lit s with
  | Some rest => POk v rest
  | None => PErr
  end.

(** Recursive descent over the JSON grammar.  [fuel] bounds the depth of
    the calls; [PFuel] tells that it ran out and is no answer of
    [JSON.parse]. *)
Fixpoint parse_value (fuel : nat) (s : string) : presult value :=
  match fuel with
  | O => PFuel
  | S fuel' =>
      match skip_ws s with
      | EmptyString => PErr
      | String c r =>
          if decide (c = "{"%char) then
            match skip_ws r with
            | String "}"%char r' => POk (VObj []) r'
            | _ => parse_members fuel' [] r
            end
          else if decide (c = "["%char) then
            match skip_ws r with
            | String "]"%char r' => POk (VArr []) r'
            | _ => parse_elements fuel' [] r
            end
          else if decide (c = quote_char) then
            match read_string None r with
            | Some (str, r') => POk (VStr str) r'
            | None => PErr
            end
          else if decide (c = "t"%char) then
            parse_literal "true" (VBool true) (String c r)
          else if decide (c = "f"%char) then
            parse_literal "false" (VBool false) (String c r)
          else if decide (c = "n"%char) then
            parse_literal "null" VNull (String c r)
          else if bool_decide (c = "-"%char) || is_digit c then
            parse_number (String c r)
          else PErr
      end
  end
with parse_elements (fuel : nat) (acc : list value) (s : string)
  : presult value :=
  match fuel with
  | O => PFuel
  | S fuel' =>
      match parse_value fuel' s with
      | POk v r =>
          match skip_ws r with
          | String ","%char r' => parse_elements fuel' (acc ++ [v]) r'
          | String "]"%char r' => POk (VArr (acc ++ [v])) r'
          | _ => PErr
          end
      | PErr => PErr
      | PFuel => PFuel
      end
  end
with parse_members (fuel : nat) (acc : list (string * value)) (s : string)
  : presult value :=
  match fuel with
  | O => PFuel
  | S fuel' =>
      match skip_ws s with
      | String c r =>
          if decide (c = quote_char) then
            match read_string None r with
            | Some (k, r1) =>
                match skip_ws r1 with
                | String ":"%char r2 =>
                    match parse_value fuel' r2 with
                    | POk v r3 =>
                        match skip_ws r3 with
                        | String ","%char r4 =>
                            parse_members fuel' (obj_set k v acc) r4
                        | String "}"%char r4 =>
                            POk (VObj (obj_set k v acc)) r4
                        | _ => PErr
                        end
                    | PErr => PErr
                    | PFuel => PFuel
                    end
                | _ => PErr
                end
            | None => PErr
            end
          else PErr
      | EmptyString => PErr
      end
  end.

(** [JSON.parse]: [None] is a [SyntaxError]. *)
Definition JSON_parse (s : string) : option value :=
  match parse_value (S (2 * String.length s)) s with
  | POk v rest =>
      match skip_ws rest with
      | EmptyString => Some v
      | _ => None
      end
  | _ => None
  end.

(** One level of each parsing function, with the calls it makes as
    parameters: [parse_value (S fuel)] is [value_step] of the functions at
    [fuel], and so on ([parse_value_step]).  The properties of the fuel
    follow level by level. *)

Definition value_step
  (pe : list value → string → presult value)
  (pm : list (string * value) → string → presult value)
  (s : string) : presult value :=
  match skip_ws s with
  | EmptyString => PErr
  | String c r =>
      if decide (c = "{"%char) then
        match skip_ws r with
        | String c' r' =>
            if decide (c' = "}"%char) then POk (VObj []) r' else pm [] r
        | EmptyString => pm [] r
        end
      else if decide (c = "["%char) then
        match skip_ws r with
        | String c' r' =>
            if decide (c' = "]"%char) then POk (VArr []) r' else pe [] r
        | EmptyString => pe [] r
        end
      else if decide (c = quote_char) then
        match read_string None r with
        | Some (str, r') => POk (VStr str) r'
        | None => PErr
        end
      else if decide (c = "t"%char) then
        parse_literal "true" (VBool true) (String c r)
      else if decide (c = "f"%char) then
        parse_literal "false" (VBool false) (String c r)
      else if decide (c = "n"%char) then
        parse_literal "null" VNull (String c r)
      else if bool_decide (c = "-"%char) || is_digit c then
        parse_number (String c r)
      else PErr
  end.

Definition elements_step
  (pv : string → presult value)
  (pe : list value → string → presult value)
  (acc : list value) (s : string) : presult value :=
  match pv s with
  | POk v r =>
      match skip_ws r with
      | String c r' =>
          if decide (c = ","%char) then pe (acc ++ [v]) r'
          else if decide (c = "]"%char) then POk (VArr (acc ++ [v])) r'
          else PErr
      | EmptyString => PErr
      end
  | PErr => PErr
  | PFuel => PFuel
  end.

Definition members_step
  (pv : string → presult value)
  (pm : list (string * value) → string → presult value)
  (acc : list (string * value)) (s : string) : presult value :=
  match skip_ws s with
  | String c r =>
      if decide (c = quote_char) then
        match read_string None r with
        | Some (k, r1) =>
            match skip_ws r1 with
            | String c1 r2 =>
                if decide (c1 = ":"%char) then
                  match pv r2 with
                  | POk v r3 =>
                      match skip_ws r3 with
                      | String c3 r4 =>
                          if decide (c3 = ","%char)
                          then pm (obj_set k v acc) r4
                          else if decide (c3 = "}"%char)
                          then POk (VObj (obj_set k v acc)) r4
                          else PErr
                      | EmptyString => PErr
                      end
                  | PErr => PErr
                  | PFuel => PFuel
                  end
                else PErr
            | EmptyString => PErr
            end
        | None => PErr
        end
      else PErr
  | EmptyString => PErr
  end.

(** ** The world state and the stub ([ctx.stub])

    The ledger is an ordered map from keys to stored texts.  A range
    scan hands out an iterator over a snapshot of the entries in key
    order; the host may fail a call of [next] ([fault_in] counts the
    entries delivered before it does), and an iterator stays open until
    [close] is called on it. *)

Record iterator := {
  pending : list (string * string);   (* the entries not yet delivered *)
  fault_in : option nat;              (* deliveries left before a failure *)
  closed : bool
}.

(** [iterators] holds every iterator handed out, by handle;
    [scan_fault] is what the host has in store for the next scan. *)
Record world := {
  state : gmap string string;
  iterators : list iterator;
  scan_fault : option nat
}.

(** The exceptions: the two [Error]s the contract throws ("already
    exists", "does not exist"), the ones of [JSON.parse] and of a
    property access, and a failure of the store. *)
Inductive error :=
| AssetAlreadyExists (id : string)
| AssetDoesNotExist (id : string)
| SyntaxError
| TypeError
| StoreFailure.

(** The message of the [Error] the contract throws. *)
Definition error_message (e : error) : string :=
  match e with
  | AssetAlreadyExists id => "The asset " +:+ id +:+ " already exists"
  | AssetDoesNotExist id => "The asset " +:+ id +:+ " does not exist"
  | SyntaxError => "SyntaxError"
  | TypeError => "TypeError"
  | StoreFailure => "StoreFailure"
  end.

(** The outcome of a call: a value, an exception, or the loop bound of
    the embedding reached ([OutOfFuel], never an outcome of the
    contract: see [GetAllAssets_total]). *)
Inductive outcome (A : Type) :=
| Ok (a : A)
| Throw (e : error)
| OutOfFuel.
Arguments Ok {A} a.
Arguments Throw {A} e.
Arguments OutOfFuel {A}.

Definition M (A : Type) : Type := world → outcome A * world.

Definition ret {A} (a : A) : M A := λ w, (Ok a, w).
Definition throw {A} (e : error) : M A := λ w, (Throw e, w).
Definition bind {A B} (m : M A) (k : A → M B) : M B :=
  λ w, match m w with
       | (Ok a, w') => k a w'
       | (Throw e, w') => (Throw e, w')
       | (OutOfFuel, w') => (OutOfFuel, w')
       end.

Notation "'let*' x ':=' m 'in' k" := (bind m (λ x, k))
  (at level 10, x pattern, m at level 100, k at level 200).

(** The store calls of the stub.  They are taken to succeed; the one host
    failure of the embedding is that of [next] during a scan
    ([scan_fault]). *)
Definition getState (key : string) : M string :=
  λ w, (Ok (default "" (state w !! key)), w).

Definition putState (key value : string) : M unit :=
  λ w, (Ok (),
        {| state := <[key := value]> (state w);
           iterators := iterators w;
           scan_fault := scan_fault w |}).

Definition deleteState (key : string) : M unit :=
  λ w, (Ok (),
        {| state := delete key (state w);
           iterators := iterators w;
           scan_fault := scan_fault w |}).

Definition key_le (a b : string * string) : Prop := String.le a.1 b.1.

#[export] Instance key_le_dec : RelDecision key_le.
Proof. intros a b. unfold key_le. apply _. Defined.

(** The entries in ascending key order. *)
Definition sorted_entries (st : gmap string string) : list (string * string) :=
  merge_sort key_le (map_to_list st).

(** Keys from [startKey] on and before [endKey]; an empty bound is open. *)
Definition in_range (startKey endKey key : string) : bool :=
  bool_decide (String.le startKey key) &&
  (bool_decide (endKey = "") ||
   (bool_decide (String.le key endKey) && negb (bool_decide (key = endKey)))).

Definition range_entries (st : gmap string string) (startKey endKey : string)
  : list (string * string) :=
  filter (λ kv, in_range startKey endKey kv.1 = true) (sorted_entries st).

(** [getStateByRange]: a new open iterator; its handle is its index. *)
Definition getStateByRange (startKey endKey : string) : M nat :=
  λ w, (Ok (length (iterators w)),
        {| state := state w;
           iterators := iterators w ++
             [{| pending := range_entries (state w) startKey endKey;
                 fault_in := scan_fault w;
                 closed := false |}];
           scan_fault := None |}).

Definition set_iterator (h : nat) (it : iterator) (w : world) : world :=
  {| state := state w;
     iterators := <[h := it]> (iterators w);
     scan_fault := scan_fault w |}.

(** [iterator.next()]: [None] is [{done: true}]. *)
Definition iterator_next (h : nat) : M (option (string * string)) :=
  λ w, match iterators w !! h with
       | None => (Throw StoreFailure, w)
       | Some it =>
           match fault_in it with
           | Some O => (Throw StoreFailure, w)
           | _ =>
               match pending it with
               | [] => (Ok None, w)
               | kv :: rest =>
                   (Ok (Some kv),
                    set_iterator h
                      {| pending := rest;
                         fault_in := Nat.pred <$> fault_in it;
                         closed := closed it |} w)
               end
           end
       end.

(** [iterator.close()]. *)
Definition iterator_close (h : nat) : M unit :=
  λ w, match iterators w !! h with
       | None => (Throw StoreFailure, w)
       | Some it =>
           (Ok (),
            set_iterator h
              {| pending := pending it;
                 fault_in := fault_in it;
                 closed := true |} w)
       end.

(** ** The contract *)

Definition asset_literal (id color : string) (size : Z) (owner : string)
  (appraisedValue : Z) : list (string * value) :=
  [("ID", VStr id); ("Color", VStr color); ("Size", VNum (num_lit size));
   ("Owner", VStr owner); ("AppraisedValue", VNum (num_lit appraisedValue))].

Definition initial_assets : list (list (string * value)) :=
  [asset_literal "asset1" "blue" 5 "Tomoko" 300;
   asset_literal "asset2" "red" 5 "Brad" 400;
   asset_literal "asset3" "green" 10 "Jin Soo" 500;
   asset_literal "asset4" "yellow" 10 "Max" 600;
   asset_literal "asset5" "black" 15 "Adriana" 700;
   asset_literal "asset6" "white" 15 "Michel" 800].

(** [asset.ID] of a literal: the text of the property. *)
Definition text_property (k : string) (fields : list (string * value))
  : string :=
  match obj_get k fields with
  | Some (VStr s) => s
  | _ => ""
  end.

Fixpoint for_each {A} (body : A → M unit) (l : list A) : M unit :=
  match l with
  | [] => ret ()
  | x :: rest => let* _ := body x in for_each body rest
  end.

Definition InitLedger : M unit :=
  for_each
    (λ asset,
       let asset := obj_set "docType" (VStr "asset") asset in
       putState (text_property "ID" asset) (encode (VObj asset)))
    initial_assets.

Definition AssetExists (id : string) : M bool :=
  let* assetJSON := getState id in
  ret (0 <? String.length assetJSON)%nat.

Definition CreateAsset (id color size owner appraisedValue : string)
  : M string :=
  let* exists_ := AssetExists id in
  if exists_ : bool then throw (AssetAlreadyExists id)
  else
    let asset :=
      VObj [("ID", VStr id); ("Color", VStr color);
            ("Size", VNum (Number size)); ("Owner", VStr owner);
            ("AppraisedValue", VNum (Number appraisedValue))] in
    let* _ := putState id (encode asset) in
    ret (JSON_stringify asset).

Definition ReadAsset (id : string) : M string :=
  let* assetJSON := getState id in
  if (String.length assetJSON =? 0)%nat then throw (AssetDoesNotExist id)
  else ret assetJSON.

Definition UpdateAsset (id color size owner appraisedValue : string)
  : M unit :=
  let* exists_ := AssetExists id in
  if negb exists_ then throw (AssetDoesNotExist id)
  else
    let updatedAsset :=
      VObj [("ID", VStr id); ("Color", VStr color); ("Size", VStr size);
            ("Owner", VStr owner); ("AppraisedValue", VStr appraisedValue)] in
    putState id (encode updatedAsset).

Definition DeleteAsset (id : string) : M unit :=
  let* exists_ := AssetExists id in
  if negb exists_ then throw (AssetDoesNotExist id)
  else deleteState id.

(** [asset.Owner] is read and then assigned.  On an object both work; on
    an array the assignment adds a named property, which no encoding
    writes; [null] has no property to read, and the file is in strict
    mode, where assigning a property of a primitive throws.  The result
    [None] is [undefined]. *)
Definition TransferAsset (id newOwner : string) : M (option value) :=
  let* assetString := ReadAsset id in
  match JSON_parse assetString with
  | None => throw SyntaxError
  | Some (VObj fields) =>
      let oldOwner := obj_get "Owner" fields in
      let asset := VObj (obj_set "Owner" (VStr newOwner) fields) in
      let* _ := putState id (encode asset) in
      ret oldOwner
  | Some (VArr items) =>
      let* _ := putState id (encode (VArr items)) in
      ret None
  | Some _ => throw TypeError
  end.

(** The body of the [while (!result.done)] loop, one [next] per turn. *)
Fixpoint drain (fuel : nat) (iterator : nat) (allResults : list value)
  : M (list value) :=
  match fuel with
  | O => λ w, (OutOfFuel, w)
  | S fuel' =>
      let* result := iterator_next iterator in
      match result with
      | None => ret allResults
      | Some (_, strValue) =>
          let record :=
            match JSON_parse strValue with
            | Some parsed => parsed
            | None => VStr strValue
            end in
          drain fuel' iterator (allResults ++ [record])
      end
  end.

Definition GetAllAssets : M string :=
  λ w,
    (let* iterator := getStateByRange "" "" in
     let* allResults := drain (S (size (state w))) iterator [] in
     ret (JSON_stringify (VArr allResults))) w.

(** ** Presence and the shape of the stored records *)

(** An asset is present when the store holds a non-empty text for it. *)
Definition present (w : world) (id : string) : bool :=
  (0 <? String.length (default "" (state w !! id)))%nat.

(** The stored text at [id], empty when there is none ([getState]). *)
Definition stored (w : world) (id : string) : string :=
  default "" (state w !! id).

(** The JSON text of a number: [null] when it is not finite. *)
Definition number_text (n : number) : string :=
  default "null" (num_json n).

(** The canonical text of a record of the five asset fields, given the
    JSON texts of their values. *)
Definition asset_text (appraisedValue color id owner size : string) : string :=
  "{" +:+
  join_comma [member_text "AppraisedValue" appraisedValue;
              member_text "Color" color;
              member_text "ID" id;
              member_text "Owner" owner;
              member_text "Size" size]
  +:+ "}".

(** What [GetAllAssets] pushes for a scanned entry: the parsed value,
    or the raw text when [JSON.parse] throws. *)
Definition decode_entry (kv : string * string) : value :=
  match JSON_parse kv.2 with
  | Some parsed => parsed
  | None => VStr kv.2
  end.

(** The iterator a scan of [l] ends with, and whether the host failed
    it: after [n] deliveries when [fault_in] is [Some n] and [l] has at
    least [n] entries, not at all otherwise. *)
Definition scan_fails (fault : option nat) (l : list (string * string))
  : bool :=
  match fault with
  | Some n => bool_decide (n ≤ length l)
  | None => false
  end.

Definition scan_end (it : iterator) : iterator :=
  match fault_in it with
  | Some n =>
      if bool_decide (n ≤ length (pending it))
      then {| pending := drop n (pending it); fault_in := Some 0;
              closed := closed it |}
      else {| pending := []; fault_in := Some (n - length (pending it));
              closed := closed it |}
  | None => {| pending := []; fault_in := None; closed := closed it |}
  end.

(** A well-formed value: no object has two properties of one name. *)
Inductive well_formed : value → Prop :=
| wf_null : well_formed VNull
| wf_bool b : well_formed (VBool b)
| wf_num n : well_formed (VNum n)
| wf_str s : well_formed (VStr s)
| wf_arr items : Forall well_formed items → well_formed (VArr items)
| wf_obj fields :
    NoDup (map fst fields) →
    Forall (λ kv, well_formed kv.2) fields →
    well_formed (VObj fields).

(** Two values equal as mappings: the same names with the same values at
    every level, whatever the order the properties were added in. *)
Inductive same_mapping : value → value → Prop :=
| same_null : same_mapping VNull VNull
| same_bool b : same_mapping (VBool b) (VBool b)
| same_num n : same_mapping (VNum n) (VNum n)
| same_str s : same_mapping (VStr s) (VStr s)
| same_arr items1 items2 :
    Forall2 same_mapping items1 items2 →
    same_mapping (VArr items1) (VArr items2)
| same_obj fields1 fields2 fields :
    fields1 ≡ₚ fields →
    Forall2 (λ a b, a.1 = b.1 ∧ same_mapping a.2 b.2) fields fields2 →
    same_mapping (VObj fields1) (VObj fields2).

(** A plain value: one [JSON.stringify] writes in full and [JSON.parse]
    rebuilds in the same order.  Its numbers are finite and its objects
    have distinct names, none of them an array index. *)
Inductive plain : value → Prop :=
| plain_null : plain VNull
| plain_bool b : plain (VBool b)
| plain_num n : is_Some (num_json n) → plain (VNum n)
| plain_str s : plain (VStr s)
| plain_arr items : Forall plain items → plain (VArr items)
| plain_obj fields :
    NoDup (map fst fields) →
    Forall (λ kv, is_array_index kv.1 = false) fields →
    Forall (λ kv, plain kv.2) fields →
    plain (VObj fields).

Fixpoint all_num_chars (s : string) : bool :=
  match s with
  | String c r => is_num_char c && all_num_chars r
  | EmptyString => true
  end.

(** A text that cannot continue a numeral. *)
Definition stops_numeral (rest : string) : bool :=
  match rest with
  | String c _ => negb (is_num_char c)
  | EmptyString => true
  end.

(** A text whose first character starts a value. *)
Definition starts_value (t : string) : bool :=
  match t with
  | String c _ =>
      negb (is_json_ws c) && negb (bool_decide (c = "]"%char))
      && negb (bool_decide (c = "}"%char))
  | EmptyString => false
  end.

(** The ledger before any write. *)
Definition empty_world : world :=
  {| state := ∅; iterators := []; scan_fault := None |}.

(** The five fields of an asset in canonical order. *)
Definition asset_record (appraisedValue color id owner size : value)
  : list (string * value) :=
  [("AppraisedValue", appraisedValue); ("Color", color); ("ID", id);
   ("Owner", owner); ("Size", size)].

(** The create/read round trip of the specification: what was created
    is read back, the two numeric fields as numbers. *)
Definition create_read_round_trip (w : world)
  (id color size owner appraisedValue : string) : Prop :=
  ∃ r w1 text w2 fields,
    CreateAsset id color size owner appraisedValue w = (Ok r, w1) ∧
    ReadAsset id w1 = (Ok text, w2) ∧
    text = stored w1 id ∧ w2 = w1 ∧
    JSON_parse text = Some (VObj fields) ∧
    obj_get "ID" fields = Some (VStr id) ∧
    obj_get "Color" fields = Some (VStr color) ∧
    obj_get "Size" fields = Some (VNum (Number size)) ∧
    obj_get "Owner" fields = Some (VStr owner) ∧
    obj_get "AppraisedValue" fields = Some (VNum (Number appraisedValue)).

(** A record text: the JSON text of a plain object in canonical form.
    Every text the contract stores is one ([ledger_ok]). *)
Definition record_text (t : string) : Prop :=
  ∃ fields,
    plain (VObj fields) ∧ sortKeysRecursive (VObj fields) = VObj fields ∧
    t = JSON_stringify (VObj fields).

Definition ledger_ok (w : world) : Prop :=
  ∀ id t, state w !! id = Some t → record_text t.

(** The value [JSON.parse] reads where a number was written: the number
    when it is finite, [null] otherwise. *)
Definition number_or_null (n : number) : value :=
  match num_json n with
  | Some _ => VNum n
  | None => VNull
  end.

(** The calls of the contract, and the worlds they lead to. *)
Inductive call :=
| CallInitLedger
| CallCreateAsset (id color size owner appraisedValue : string)
| CallReadAsset (id : string)
| CallUpdateAsset (id color size owner appraisedValue : string)
| CallDeleteAsset (id : string)
| CallAssetExists (id : string)
| CallTransferAsset (id newOwner : string)
| CallGetAllAssets.

Definition world_after (c : call) (w : world) : world :=
  match c with
  | CallInitLedger => (InitLedger w).2
  | CallCreateAsset id color size owner appraisedValue =>
      (CreateAsset id color size owner appraisedValue w).2
  | CallReadAsset id => (ReadAsset id w).2
  | CallUpdateAsset id color size owner appraisedValue =>
      (UpdateAsset id color size owner appraisedValue w).2
  | CallDeleteAsset id => (DeleteAsset id w).2
  | CallAssetExists id => (AssetExists id w).2
  | CallTransferAsset id newOwner => (TransferAsset id newOwner w).2
  | CallGetAllAssets => (GetAllAssets w).2
  end.

(** The worlds the contract can be in: it starts on the empty ledger,
    runs calls, and the host may plan to fail the next scan. *)
Inductive reachable : world → Prop :=
| reach_empty : reachable empty_world
| reach_call c w : reachable w → reachable (world_after c w)
| reach_fault fault w :
    reachable w →
    reachable {| state := state w; iterators := iterators w;
                 scan_fault := fault |}.

(** The records [InitLedger] writes: the literals with their [docType]. *)
Definition initial_records : list (list (string * value)) :=
  map (obj_set "docType" (VStr "asset")) initial_assets.

(** The scan is released: the iterator [GetAllAssets] opened is closed
    when the call exits. *)
Definition scan_released (w : world) : Prop :=
  ∃ it, iterators (GetAllAssets w).2 !! length (iterators w) = Some it ∧
        closed it = true.

(** The world a scan leaves: the store and the earlier iterators as they
    were, and one more iterator, run to [scan_end] and not closed. *)
Definition after_scan (w : world) : world :=
  {| state := state w;
     iterators := iterators w ++
       [scan_end {| pending := sorted_entries (state w);
                    fault_in := scan_fault w;
                    closed := false |}];
     scan_fault := None |}.


(** [v] is read back from its text, whatever follows it, given fuel. *)
Definition reads_back (v : value) : Prop :=
  ∀ rest, stops_numeral rest = true →
    ∃ f0, ∀ f, f0 ≤ f →
      parse_value f (JSON_stringify v +:+ rest) = POk v rest.

(** A parsing function that consumes at least one character when it
    succeeds. *)
Definition shortens {A} (p : A → string → presult value) : Prop :=
  ∀ acc s v r, p acc s = POk v r → String.length r < String.length s.

(** The keys a call hands to [putState] or [deleteState]. *)
Definition call_keys (c : call) : list string :=
  match c with
  | CallInitLedger => map (text_property "ID") initial_records
  | CallCreateAsset id _ _ _ _ => [id]
  | CallUpdateAsset id _ _ _ _ => [id]
  | CallDeleteAsset id => [id]
  | CallTransferAsset id _ => [id]
  | CallReadAsset _ | CallAssetExists _ | CallGetAllAssets => []
  end.

(** The record [CreateAsset] builds, its properties in source order. *)
Definition created_asset (id color size owner appraisedValue : string)
  : list (string * value) :=
  [("ID", VStr id); ("Color", VStr color); ("Size", VNum (Number size));
   ("Owner", VStr owner); ("AppraisedValue", VNum (Number appraisedValue))].

(** A parsed value that is neither an object nor an array. *)
Definition primitive (v : value) : bool :=
  match v with
  | VObj _ | VArr _ => false
  | _ => true
  end.


(** The shape of the record the contract keeps under the key [id]: its
    [ID] is [id], its [Owner] is a string, and [Color], [Size] and
    [AppraisedValue] are there. *)
Definition asset_fields (id : string) (fields : list (string * value))
  : Prop :=
  obj_get "ID" fields = Some (VStr id) ∧
  (∃ owner, obj_get "Owner" fields = Some (VStr owner)) ∧
  is_Some (obj_get "Color" fields) ∧
  is_Some (obj_get "Size" fields) ∧
  is_Some (obj_get "AppraisedValue" fields).

(** A canonical record text whose record has the shape kept under [id]. *)
Definition keyed_text (id t : string) : Prop :=
  ∃ fields,
    plain (VObj fields) ∧ sortKeysRecursive (VObj fields) = VObj fields ∧
    t = JSON_stringify (VObj fields) ∧ asset_fields id fields.

Definition ledger_keyed (w : world) : Prop :=
  ∀ id t, state w !! id = Some t → keyed_text id t.

End Contract.

Arguments POk {A} a rest.
Arguments PErr {A}.
Arguments PFuel {A}.
Arguments Ok {A} a.
Arguments Throw {A} e.
Arguments OutOfFuel {A}.

(** ** The data of the specification's examples, on the integer model *)

Section ExampleData.
#[local] Existing Instance ZNumbers.

(** A JSON text written with ['] for the double quote. *)
Definition json_text (s : string) : string :=
  string_of_list_ascii
    (map (λ c, if decide (c = "'"%char) then quote_char else c)
       (list_ascii_of_string s)).

Definition brad_owner_first : value :=
  VObj [("Owner", VStr "Brad"); ("ID", VStr "asset2")].
Definition brad_id_first : value :=
  VObj [("ID", VStr "asset2"); ("Owner", VStr "Brad")].

(** The ledger after [CreateAsset("a1","blue",5,"Tomoko",300)]. *)
Definition world_a1 : world :=
  (CreateAsset "a1" "blue" "5" "Tomoko" "300" empty_world).2.

(** The ledger after [InitLedger]. *)
Definition world_init : world := (InitLedger empty_world).2.

(** A ledger with a text that is no JSON. *)
Definition world_raw : world :=
  {| state := {[ "k1" := json_text "{'ID':'k1'}"; "k2" := "not json" ]};
     iterators := []; scan_fault := None |}.

(** A ledger with a record stored with its names out of order. *)
Definition world_unsorted : world :=
  {| state := {[ "asset2" := json_text "{'Owner':'Brad','ID':'asset2'}" ]};
     iterators := []; scan_fault := None |}.

(** The ledger after [CreateAsset("a1","blue","abc","Tomoko",300)] and
    the record read back from it. *)
Definition world_nan : world :=
  (CreateAsset "a1" "blue" "abc" "Tomoko" "300" empty_world).2.

Definition nan_fields : list (string * value) :=
  [("AppraisedValue", VNum (ZInt 300)); ("Color", VStr "blue");
   ("ID", VStr "a1"); ("Owner", VStr "Tomoko"); ("Size", VNull)].

Definition asset1_fields : list (string * value) :=
  [("AppraisedValue", VNum (ZInt 300)); ("Color", VStr "blue");
   ("ID", VStr "asset1"); ("Owner", VStr "Tomoko"); ("Size", VNum (ZInt 5));
   ("docType", VStr "asset")].

End ExampleData.

(** * Properties *)

Section Properties.
Context `{NM : NumberModel}.

Ltac cases_char c := destruct c as [[] [] [] [] [] [] [] []].

Lemma AssetExists_run w id : AssetExists id w = (Ok (present w id), w).
Proof. reflexivity. Qed.

Lemma present_stored w id :
  present w id = true ↔ stored w id ≠ "".
Proof.
  unfold present, stored. destruct (default "" (state w !! id)); simpl.
  - split; [done | by intros []].
  - split; [done | by intros _].
Qed.

Lemma ReadAsset_present w id :
  present w id = true → ReadAsset id w = (Ok (stored w id), w).
Proof.
  unfold ReadAsset, bind, getState, present, stored. simpl.
  destruct (default "" (state w !! id)); simpl; [done | by intros _].
Qed.

Lemma ReadAsset_absent w id :
  present w id = false → ReadAsset id w = (Throw (AssetDoesNotExist id), w).
Proof.
  unfold ReadAsset, bind, getState, present. simpl.
  destruct (default "" (state w !! id)); simpl; [by intros _ | done].
Qed.

Lemma encode_created id color owner (size appraisedValue : number) :
  encode (VObj [("ID", VStr id); ("Color", VStr color); ("Size", VNum size);
                ("Owner", VStr owner);
                ("AppraisedValue", VNum appraisedValue)]) =
  asset_text (number_text appraisedValue) (quote color) (quote id)
    (quote owner) (number_text size).
Proof. reflexivity. Qed.

Lemma encode_updated id color owner size appraisedValue :
  encode (VObj [("ID", VStr id); ("Color", VStr color); ("Size", VStr size);
                ("Owner", VStr owner);
                ("AppraisedValue", VStr appraisedValue)]) =
  asset_text (quote appraisedValue) (quote color) (quote id)
    (quote owner) (quote size).
Proof. reflexivity. Qed.

Lemma CreateAsset_absent w id color size owner appraisedValue :
  present w id = false →
  CreateAsset id color size owner appraisedValue w =
  (Ok (JSON_stringify
         (VObj [("ID", VStr id); ("Color", VStr color);
                ("Size", VNum (Number size)); ("Owner", VStr owner);
                ("AppraisedValue", VNum (Number appraisedValue))])),
   {| state :=
        <[id := asset_text (number_text (Number appraisedValue))
                  (quote color) (quote id) (quote owner)
                  (number_text (Number size))]> (state w);
      iterators := iterators w;
      scan_fault := scan_fault w |}).
Proof.
  intros Hp. unfold CreateAsset, bind. rewrite AssetExists_run, Hp.
  unfold putState, ret. by rewrite encode_created.
Qed.

Lemma UpdateAsset_present w id color size owner appraisedValue :
  present w id = true →
  UpdateAsset id color size owner appraisedValue w =
  (Ok (),
   {| state :=
        <[id := asset_text (quote appraisedValue) (quote color) (quote id)
                  (quote owner) (quote size)]> (state w);
      iterators := iterators w;
      scan_fault := scan_fault w |}).
Proof.
  intros Hp. unfold UpdateAsset, bind. rewrite AssetExists_run, Hp. simpl.
  unfold putState. by rewrite encode_updated.
Qed.

Lemma CreateAsset_present w id color size owner appraisedValue :
  present w id = true →
  CreateAsset id color size owner appraisedValue w =
  (Throw (AssetAlreadyExists id), w).
Proof.
  intros Hp. unfold CreateAsset, bind. by rewrite AssetExists_run, Hp.
Qed.

Lemma UpdateAsset_absent w id color size owner appraisedValue :
  present w id = false →
  UpdateAsset id color size owner appraisedValue w =
  (Throw (AssetDoesNotExist id), w).
Proof.
  intros Hp. unfold UpdateAsset, bind. by rewrite AssetExists_run, Hp.
Qed.

(** C3.  A duplicate create is rejected and changes nothing: when [id]
    is present, [CreateAsset] throws "already exists" and the world,
    hence the text stored at [id], is the one before the call. *)
Theorem CreateAsset_duplicate_rejected w id color size owner appraisedValue :
  present w id = true →
  ∃ w', CreateAsset id color size owner appraisedValue w =
          (Throw (AssetAlreadyExists id), w') ∧
        w' = w ∧ stored w' id = stored w id.
Proof.
  intros Hp. exists w. by rewrite CreateAsset_present.
Qed.

(** C7.  An update of an absent key fails and creates nothing: when [id]
    is absent, [UpdateAsset] throws "does not exist", the world is
    unchanged, and [id] is still absent (a key that was not in the map is
    not in it afterwards). *)
Theorem UpdateAsset_absent_fails w id color size owner appraisedValue :
  present w id = false →
  ∃ w', UpdateAsset id color size owner appraisedValue w =
          (Throw (AssetDoesNotExist id), w') ∧
        w' = w ∧ present w' id = false ∧
        (state w !! id = None → state w' !! id = None).
Proof.
  intros Hp. exists w. by rewrite UpdateAsset_absent.
Qed.

(** C6.  Coercion asymmetry: for all texts [size] and [appraisedValue],
    [CreateAsset] stores the numbers [Number size] and
    [Number appraisedValue] (written as JSON numbers, unquoted), whereas
    [UpdateAsset] stores the two texts as supplied, as JSON strings. *)
Theorem coercion_asymmetry w id color size owner appraisedValue :
  (present w id = false →
   ∃ r w', CreateAsset id color size owner appraisedValue w = (Ok r, w') ∧
     state w' !! id =
       Some (encode (VObj [("ID", VStr id); ("Color", VStr color);
                           ("Size", VNum (Number size));
                           ("Owner", VStr owner);
                           ("AppraisedValue",
                            VNum (Number appraisedValue))])) ∧
     stored w' id =
       asset_text (number_text (Number appraisedValue)) (quote color)
         (quote id) (quote owner) (number_text (Number size))) ∧
  (present w id = true →
   ∃ w', UpdateAsset id color size owner appraisedValue w = (Ok (), w') ∧
     state w' !! id =
       Some (encode (VObj [("ID", VStr id); ("Color", VStr color);
                           ("Size", VStr size); ("Owner", VStr owner);
                           ("AppraisedValue", VStr appraisedValue)])) ∧
     stored w' id =
       asset_text (quote appraisedValue) (quote color) (quote id)
         (quote owner) (quote size)).
Proof.
  split; intros Hp.
  - rewrite (CreateAsset_absent _ _ _ _ _ _ Hp). eexists _, _.
    split; [done|]. unfold stored. simpl. rewrite lookup_insert_eq.
    by rewrite encode_created.
  - rewrite (UpdateAsset_present _ _ _ _ _ _ Hp). eexists.
    split; [done|]. unfold stored. simpl. rewrite lookup_insert_eq.
    by rewrite encode_updated.
Qed.

(** ** The scan loop *)

Lemma set_iterator_twice h it1 it2 w :
  set_iterator h it2 (set_iterator h it1 w) = set_iterator h it2 w.
Proof. unfold set_iterator. simpl. by rewrite list_insert_insert_eq. Qed.

Lemma set_iterator_same h it w :
  iterators w !! h = Some it → set_iterator h it w = w.
Proof.
  intros E. unfold set_iterator. rewrite (list_insert_id _ _ _ E).
  by destruct w.
Qed.

Lemma set_iterator_lookup h it w :
  h < length (iterators w) → iterators (set_iterator h it w) !! h = Some it.
Proof. intros. simpl. by apply list_lookup_insert_eq. Qed.

(** The loop delivers the pending entries in order, each decoded by
    [decode_entry], until they are exhausted or the host fails. *)
Lemma drain_run h :
  ∀ l fuel acc w it,
    iterators w !! h = Some it → pending it = l → length l < fuel →
    drain fuel h acc w =
    (if scan_fails (fault_in it) l then Throw StoreFailure
     else Ok (acc ++ map decode_entry l),
     set_iterator h (scan_end it) w).
Proof.
  induction l as [|kv l IH]; intros fuel acc w it Hit Hl Hf;
    (destruct fuel as [|fuel]; [simpl in Hf; lia|]);
    destruct it as [p f c]; simpl in Hl; subst p;
    simpl drain; unfold bind, iterator_next; rewrite Hit; simpl.
  - destruct f as [[|n]|]; simpl; unfold scan_end; simpl.
    + by rewrite set_iterator_same.
    + rewrite app_nil_r. by rewrite set_iterator_same.
    + rewrite app_nil_r. by rewrite set_iterator_same.
  - assert (Hh : h < length (iterators w)) by (by eapply lookup_lt_Some).
    destruct f as [[|n]|]; simpl.
    + unfold scan_end. simpl. by rewrite set_iterator_same.
    + destruct kv as [k strValue].
      erewrite IH; [|by apply set_iterator_lookup|done|simpl in *; lia].
      rewrite set_iterator_twice. simpl.
      unfold scan_end. simpl. rewrite <- app_assoc. simpl.
      unfold decode_entry at 2. simpl.
      destruct (bool_decide (n ≤ length l)) eqn:E.
      * apply bool_decide_eq_true in E.
        rewrite (bool_decide_eq_true_2 (S n ≤ S (length l))) by lia. done.
      * apply bool_decide_eq_false in E.
        rewrite (bool_decide_eq_false_2 (S n ≤ S (length l))) by lia. done.
    + destruct kv as [k strValue].
      erewrite IH; [|by apply set_iterator_lookup|done|simpl in *; lia].
      rewrite set_iterator_twice. simpl.
      unfold scan_end. simpl. rewrite <- app_assoc. done.
Qed.

Lemma in_range_open key : in_range "" "" key = true.
Proof.
  unfold in_range. rewrite bool_decide_eq_true_2; [done|].
  unfold String.le. by destruct key.
Qed.

Lemma range_entries_open st : range_entries st "" "" = sorted_entries st.
Proof.
  unfold range_entries. induction (sorted_entries st) as [|kv l IH]; [done|].
  rewrite filter_cons_True; [by rewrite IH | apply in_range_open].
Qed.

Lemma sorted_entries_Permutation st : sorted_entries st ≡ₚ map_to_list st.
Proof. apply merge_sort_Permutation. Qed.

Lemma length_sorted_entries st : length (sorted_entries st) = size st.
Proof.
  rewrite sorted_entries_Permutation. apply length_map_to_list.
Qed.

Lemma GetAllAssets_run w :
  GetAllAssets w =
  (if scan_fails (scan_fault w) (sorted_entries (state w))
   then Throw StoreFailure
   else Ok (JSON_stringify
              (VArr (map decode_entry (sorted_entries (state w))))),
   after_scan w).
Proof.
  unfold GetAllAssets, bind at 1, getStateByRange.
  rewrite range_entries_open. unfold bind at 1.
  erewrite drain_run;
    [ | simpl; apply list_lookup_middle; reflexivity
      | reflexivity
      | simpl; rewrite length_sorted_entries; lia ].
  unfold set_iterator, after_scan. simpl.
  rewrite insert_app_r_alt by lia. rewrite Nat.sub_diag. simpl.
  by destruct (scan_fails _ _).
Qed.

#[local] Instance key_le_trans : Transitive key_le.
Proof. intros a b c. unfold key_le. apply transitivity. Qed.

#[local] Instance key_le_total : Total key_le.
Proof. intros a b. unfold key_le. apply total, _. Qed.

(** The scan goes through the keys in ascending order. *)
Lemma sorted_entries_sorted st : StronglySorted key_le (sorted_entries st).
Proof. apply StronglySorted_merge_sort; apply _. Qed.

(** The loop bound of the embedding is never reached. *)
Lemma GetAllAssets_total w : (GetAllAssets w).1 ≠ OutOfFuel.
Proof. rewrite GetAllAssets_run. simpl. by destruct (scan_fails _ _). Qed.

(** C8.  Per-entry decode degradation: when the host does not fail the
    scan, [GetAllAssets] succeeds whatever the store holds; its result
    lists one value per stored key, in key order; the value of an entry
    whose text [JSON.parse] rejects is that raw text, the value of any
    other entry is what [JSON.parse] returns. *)
Theorem GetAllAssets_degrades_per_entry w :
  scan_fault w = None →
  ∃ results w',
    GetAllAssets w = (Ok (JSON_stringify (VArr results)), w') ∧
    results = map decode_entry (sorted_entries (state w)) ∧
    length results = size (state w) ∧
    sorted_entries (state w) ≡ₚ map_to_list (state w) ∧
    StronglySorted key_le (sorted_entries (state w)) ∧
    Forall2 (λ kv record,
               match JSON_parse kv.2 with
               | Some parsed => record = parsed
               | None => record = VStr kv.2
               end)
      (sorted_entries (state w)) results.
Proof.
  intros Hf. eexists _, _. rewrite GetAllAssets_run, Hf. simpl.
  split; [reflexivity|]. split; [reflexivity|].
  split; [by rewrite length_map, length_sorted_entries|].
  split; [apply sorted_entries_Permutation|].
  split; [apply sorted_entries_sorted|].
  induction (sorted_entries (state w)) as [|kv l IH]; simpl; constructor.
  - unfold decode_entry. by destruct (JSON_parse kv.2).
  - apply IH.
Qed.

(** C9, amended.  [GetAllAssets] opens one iterator and never closes it:
    on every exit path, the normal one and the one where the host fails a
    [next], the iterators that existed are untouched and the new one,
    at handle [length (iterators w)], is open; on the normal path it is
    exhausted. *)
Theorem GetAllAssets_leaves_iterator_open w :
  ∃ it,
    iterators (GetAllAssets w).2 = iterators w ++ [it] ∧
    closed it = false ∧
    (GetAllAssets w).1 ≠ OutOfFuel ∧
    (∀ r, (GetAllAssets w).1 = Ok r → pending it = []) ∧
    (∀ e, (GetAllAssets w).1 = Throw e → e = StoreFailure).
Proof.
  rewrite GetAllAssets_run. simpl. eexists. split; [reflexivity|].
  unfold scan_end, scan_fails. simpl.
  destruct (scan_fault w) as [n|]; simpl.
  - destruct (bool_decide _) eqn:E; simpl; repeat split; try done.
    by intros e [= <-].
  - repeat split; done.
Qed.

(** ** The encoder is canonical *)

Lemma sortKeysRecursive_obj fields :
  sortKeysRecursive (VObj fields) =
  VObj (sorted_fields (map (λ kv, (kv.1, sortKeysRecursive kv.2)) fields)).
Proof. reflexivity. Qed.

Lemma obj_get_Permutation k (f1 f2 : list (string * value)) :
  f1 ≡ₚ f2 → NoDup (map fst f1) → obj_get k f1 = obj_get k f2.
Proof.
  induction 1 as [|[k1 v1] f1 f2 Hp IH|[k1 v1] [k2 v2] f|f1 f2 f3 H12 IH12 H23 IH23];
    simpl; intros Hnd.
  - done.
  - apply NoDup_cons in Hnd as [_ Hnd]. by rewrite IH.
  - apply NoDup_cons in Hnd as [Hin _].
    repeat case_decide; subst; try done.
    exfalso. apply Hin. simpl. by left.
  - rewrite IH12 by done. apply IH23.
    assert (map fst f1 ≡ₚ map fst f2) as Hp by (by apply fmap_Permutation).
    by rewrite <- Hp.
Qed.

Lemma sorted_keys_Permutation (l1 l2 : list string) :
  l1 ≡ₚ l2 → merge_sort String.le l1 = merge_sort String.le l2.
Proof.
  intros Hp. apply (StronglySorted_unique String.le).
  - apply StronglySorted_merge_sort; apply _.
  - apply StronglySorted_merge_sort; apply _.
  - by rewrite !merge_sort_Permutation.
Qed.

Lemma sorted_fields_Permutation f1 f2 :
  f1 ≡ₚ f2 → NoDup (map fst f1) → sorted_fields f1 = sorted_fields f2.
Proof.
  intros Hp Hnd. unfold sorted_fields.
  rewrite (sorted_keys_Permutation (map fst f1) (map fst f2))
    by (by apply fmap_Permutation).
  apply map_ext. intros k. by rewrite (obj_get_Permutation k f1 f2).
Qed.

Lemma sortKeysRecursive_same a :
  ∀ b, well_formed a → same_mapping a b →
       sortKeysRecursive a = sortKeysRecursive b.
Proof.
  induction a as [|b0|n0|s0|items IH|fields IH] using value_ind;
    intros b Hwf Hs; inversion Hs; subst; try done.
  - simpl. f_equal. inversion Hwf as [| | | |? Hall|]; subst.
    match goal with H : Forall2 same_mapping _ _ |- _ => rename H into H2 end.
    clear Hs Hwf. induction H2 as [|x y l l' Hxy Hl IHl]; [done|].
    simpl. apply Forall_cons in IH as [IHx IHr].
    apply Forall_cons in Hall as [Hx Hr].
    f_equal; [by apply IHx | by apply IHl].
  - rewrite !sortKeysRecursive_obj. f_equal.
    inversion Hwf as [| | | | |? Hnd Hall]; subst.
    match goal with
    | Hp : fields ≡ₚ ?f, H2 : Forall2 _ ?f _ |- _ =>
        rename Hp into Hperm; rename H2 into Hrel
    end.
    set (norm := λ kv : string * value, (kv.1, sortKeysRecursive kv.2)).
    transitivity (sorted_fields (map norm fields0)).
    + apply sorted_fields_Permutation.
      * by apply fmap_Permutation.
      * rewrite map_map. simpl. done.
    + f_equal. rewrite Hperm in IH, Hall. clear Hperm Hnd Hs Hwf.
      induction Hrel as [|x y l l' [Hk Hv] Hl IHl]; [done|].
      simpl. apply Forall_cons in IH as [IHx IHr].
      apply Forall_cons in Hall as [Hx Hr].
      f_equal; [|by apply IHl].
      unfold norm. rewrite Hk. f_equal. by apply IHx.
Qed.

(** C1.  Canonical encoding: two well-formed records that are equal as
    mappings of names to values, whatever the order of their properties
    at any level, have the same encoding. *)
Theorem encode_deterministic a b :
  well_formed a → same_mapping a b → encode a = encode b.
Proof.
  intros Hwf Hs. unfold encode, stringify.
  by rewrite (sortKeysRecursive_same a b Hwf Hs).
Qed.

(** ** [JSON.parse] reads back what [JSON.stringify] writes *)

Lemma app_cons c (a b : string) : String c a +:+ b = String c (a +:+ b).
Proof. reflexivity. Qed.

Lemma app_empty_l (a : string) : "" +:+ a = a.
Proof. reflexivity. Qed.

Lemma app_assoc_text (a b c : string) : (a +:+ b) +:+ c = a +:+ (b +:+ c).
Proof. induction a as [|x a IH]; [done|]. rewrite !app_cons. by rewrite IH. Qed.

Lemma app_empty_r (a : string) : a +:+ "" = a.
Proof. induction a as [|x a IH]; [done|]. rewrite app_cons. by rewrite IH. Qed.

Lemma length_app_text (a b : string) :
  String.length (a +:+ b) = String.length a + String.length b.
Proof. induction a as [|x a IH]; [done|]. rewrite app_cons. simpl. by rewrite IH. Qed.

(** *** Strings *)

Lemma read_escape_char c r :
  read_string None (escape_char c +:+ r) =
  prepend (String c "") (read_string None r).
Proof.
  destruct c as [[] [] [] [] [] [] [] []]; reflexivity.
Qed.

Lemma read_string_escape s rest :
  read_string None (escape s +:+ String quote_char rest) = Some (s, rest).
Proof.
  induction s as [|c s IH]; [done|].
  simpl escape. rewrite app_assoc_text, read_escape_char, IH. done.
Qed.

Lemma read_string_quote s rest :
  ∃ t, quote s +:+ rest = String quote_char t ∧
       read_string None t = Some (s, rest).
Proof.
  exists (escape s +:+ String quote_char rest). split.
  - unfold quote. rewrite app_cons, app_assoc_text. done.
  - apply read_string_escape.
Qed.

(** *** Numerals *)

Lemma skip_digits_num_chars s :
  all_num_chars (skip_digits s) = true → all_num_chars s = true.
Proof.
  induction s as [|c s IH]; [done|]. simpl.
  destruct (is_digit c) eqn:E; [|done].
  intros H. unfold is_num_char. rewrite E. simpl. by apply IH.
Qed.

Lemma exp_digits_num_chars s r :
  exp_digits s = Some r → all_num_chars r = true → all_num_chars s = true.
Proof.
  destruct s as [|c s]; [done|]. simpl.
  destruct (is_digit c) eqn:E; [|done]. intros [= <-] H.
  unfold is_num_char. rewrite E. simpl. by apply skip_digits_num_chars.
Qed.

Lemma exp_sign_num_chars s r :
  match s with
  | String "+"%char r' | String "-"%char r' => exp_digits r'
  | _ => exp_digits s
  end = Some r →
  all_num_chars r = true → all_num_chars s = true.
Proof.
  destruct s as [|d s]; [done|].
  destruct (decide (d = "+"%char)) as [->|];
    [|destruct (decide (d = "-"%char)) as [->|]].
  - intros H1 H2. apply (exp_digits_num_chars _ _ H1 H2).
  - intros H1 H2. apply (exp_digits_num_chars _ _ H1 H2).
  - intros H1 H2.
    assert (exp_digits (String d s) = Some r) as H3
      by (revert H1; cases_char d; done).
    apply (exp_digits_num_chars _ _ H3 H2).
Qed.

Lemma num_exp_num_chars s r :
  num_exp s = Some r → all_num_chars r = true → all_num_chars s = true.
Proof.
  destruct s as [|c s]; [by intros [= <-]|].
  destruct (decide (c = "e"%char)) as [->|He];
    [|destruct (decide (c = "E"%char)) as [->|HE]].
  - intros H1 H2. apply (exp_sign_num_chars _ _ H1 H2).
  - intros H1 H2. apply (exp_sign_num_chars _ _ H1 H2).
  - intros H1. assert (r = String c s) as ->
      by (revert H1 He HE; cases_char c; simpl; congruence).
    done.
Qed.

Lemma num_frac_num_chars s r :
  num_frac s = Some r → all_num_chars r = true → all_num_chars s = true.
Proof.
  destruct s as [|c s]; [by intros [= <-]|].
  destruct (decide (c = "."%char)) as [->|Hc].
  - simpl. destruct s as [|d s]; [done|].
    destruct (is_digit d) eqn:E; [|done]. intros [= <-] H.
    apply skip_digits_num_chars in H.
    change (is_num_char d && all_num_chars s = true).
    unfold is_num_char. by rewrite E, H.
  - intros H1. assert (r = String c s) as ->
      by (revert H1 Hc; cases_char c; simpl; congruence).
    done.
Qed.

Lemma num_int_num_chars s r :
  num_int s = Some r → all_num_chars r = true →
  all_num_chars s = true ∧
  ∃ c t, s = String c t ∧ is_digit c = true.
Proof.
  destruct s as [|c s]; [done|].
  destruct (decide (c = "0"%char)) as [->|Hc].
  - simpl. intros [= <-] H. split; [done|]. by eexists _, _.
  - intros H1 H2.
    assert (is_digit c = true ∧ r = skip_digits s) as [E ->].
    { revert H1 Hc. cases_char c; simpl; try done; intros [= <-]; done. }
    split; [|by eexists _, _].
    simpl. unfold is_num_char. rewrite E. simpl.
    by apply skip_digits_num_chars.
Qed.

Lemma json_numeral_shape t :
  json_numeral t = true →
  all_num_chars t = true ∧
  ∃ c r, t = String c r ∧ (bool_decide (c = "-"%char) || is_digit c) = true.
Proof.
  unfold json_numeral.
  destruct (num_int (num_sign t)) as [r1|] eqn:E1; [|done].
  destruct (num_frac r1) as [r2|] eqn:E2; [|done].
  destruct (num_exp r2) as [[|]|] eqn:E3; try done. intros _.
  pose proof (num_exp_num_chars _ _ E3 eq_refl) as H2.
  pose proof (num_frac_num_chars _ _ E2 H2) as H1.
  destruct (num_int_num_chars _ _ E1 H1) as [H0 (c & u & Hs & Hd)].
  destruct t as [|x t]; [done|].
  destruct (decide (x = "-"%char)) as [->|Hx].
  - simpl in H0. split; [done|]. by eexists _, _.
  - assert (num_sign (String x t) = String x t) as Hsig
      by (revert Hx; cases_char x; done).
    rewrite Hsig in *. injection Hs as -> ->. split; [done|].
    eexists _, _. split; [done|]. rewrite Hd. by rewrite orb_true_r.
Qed.

Lemma num_span_app t rest :
  all_num_chars t = true → stops_numeral rest = true →
  num_span (t +:+ rest) = (t, rest).
Proof.
  intros Ht Hr. induction t as [|c t IH].
  - simpl. destruct rest as [|c r]; [done|]. simpl in *.
    by destruct (is_num_char c).
  - simpl in Ht. apply andb_true_iff in Ht as [Hc Ht].
    rewrite app_cons. simpl. rewrite Hc, (IH Ht). done.
Qed.

Lemma parse_value_number_start c r fuel :
  (bool_decide (c = "-"%char) || is_digit c) = true →
  parse_value (S fuel) (String c r) = parse_number (String c r).
Proof. cases_char c; intros H; try discriminate H; reflexivity. Qed.

Lemma parse_value_number n t rest fuel :
  num_json n = Some t → stops_numeral rest = true →
  parse_value (S fuel) (t +:+ rest) = POk (VNum n) rest.
Proof.
  intros Hn Hr.
  destruct (json_numeral_shape t (num_json_numeral n t Hn))
    as [Hall (c & r & -> & Hc)].
  rewrite app_cons, parse_value_number_start by done.
  unfold parse_number. rewrite <- app_cons, num_span_app by done.
  by rewrite (num_json_numeral n _ Hn), (num_read_json n _ Hn).
Qed.

Lemma starts_value_numeral n t :
  num_json n = Some t → starts_value t = true.
Proof.
  intros Hn.
  destruct (json_numeral_shape t (num_json_numeral n t Hn))
    as [_ (c & r & -> & Hc)].
  revert Hc. cases_char c; done.
Qed.

(** *** Values *)

Lemma parse_elements_S fuel acc s :
  parse_elements (S fuel) acc s =
  match parse_value fuel s with
  | POk v r =>
      match skip_ws r with
      | String ","%char r' => parse_elements fuel (acc ++ [v]) r'
      | String "]"%char r' => POk (VArr (acc ++ [v])) r'
      | _ => PErr
      end
  | PErr => PErr
  | PFuel => PFuel
  end.
Proof. reflexivity. Qed.

Lemma parse_members_key fuel acc u k r2 :
  read_string None u = Some (k, String ":" r2) →
  parse_members (S fuel) acc (String quote_char u) =
  match parse_value fuel r2 with
  | POk v r3 =>
      match skip_ws r3 with
      | String ","%char r4 => parse_members fuel (obj_set k v acc) r4
      | String "}"%char r4 => POk (VObj (obj_set k v acc)) r4
      | _ => PErr
      end
  | PErr => PErr
  | PFuel => PFuel
  end.
Proof.
  intros E. change (parse_members (S fuel) acc (String quote_char u)) with
    (match read_string None u with
     | Some (k, r1) =>
         match skip_ws r1 with
         | String ":"%char r2 =>
             match parse_value fuel r2 with
             | POk v r3 =>
                 match skip_ws r3 with
                 | String ","%char r4 =>
                     parse_members fuel (obj_set k v acc) r4
                 | String "}"%char r4 => POk (VObj (obj_set k v acc)) r4
                 | _ => PErr
                 end
             | PErr => PErr
             | PFuel => PFuel
             end
         | _ => PErr
         end
     | None => PErr
     end).
  rewrite E. reflexivity.
Qed.

Lemma parse_elements_more fuel acc s v r :
  parse_value fuel s = POk v (String "," r) →
  parse_elements (S fuel) acc s = parse_elements fuel (acc ++ [v]) r.
Proof. intros E. by rewrite parse_elements_S, E. Qed.

Lemma parse_elements_last fuel acc s v r :
  parse_value fuel s = POk v (String "]" r) →
  parse_elements (S fuel) acc s = POk (VArr (acc ++ [v])) r.
Proof. intros E. by rewrite parse_elements_S, E. Qed.

Lemma parse_members_more fuel acc u k r2 v r :
  read_string None u = Some (k, String ":" r2) →
  parse_value fuel r2 = POk v (String "," r) →
  parse_members (S fuel) acc (String quote_char u) =
  parse_members fuel (obj_set k v acc) r.
Proof. intros Hu E. by rewrite (parse_members_key _ _ _ _ _ Hu), E. Qed.

Lemma parse_members_last fuel acc u k r2 v r :
  read_string None u = Some (k, String ":" r2) →
  parse_value fuel r2 = POk v (String "}" r) →
  parse_members (S fuel) acc (String quote_char u) =
  POk (VObj (obj_set k v acc)) r.
Proof. intros Hu E. by rewrite (parse_members_key _ _ _ _ _ Hu), E. Qed.

Lemma parse_value_array t rest fuel :
  starts_value t = true →
  parse_value (S fuel) (String "[" (t +:+ rest)) =
  parse_elements fuel [] (t +:+ rest).
Proof.
  destruct t as [|c t]; [done|]. rewrite app_cons.
  cases_char c; intros H; try discriminate H; reflexivity.
Qed.

Lemma parse_value_object u fuel :
  parse_value (S fuel) (String "{" (String quote_char u)) =
  parse_members fuel [] (String quote_char u).
Proof. reflexivity. Qed.

Lemma obj_get_None k (fields : list (string * value)) :
  k ∉ map fst fields → obj_get k fields = None.
Proof.
  induction fields as [|[k' v] l IH]; [done|]. simpl. intros Hn.
  apply not_elem_of_cons in Hn as [Hne Hn].
  case_decide; [by subst|]. by apply IH.
Qed.

Lemma obj_set_fresh k v (fields : list (string * value)) :
  k ∉ map fst fields → is_array_index k = false →
  obj_set k v fields = fields ++ [(k, v)].
Proof.
  intros Hn Hi. unfold obj_set. by rewrite obj_get_None, Hi.
Qed.

Lemma elements_read_back items :
  Forall reads_back items → items ≠ [] →
  ∀ acc rest, ∃ f0, ∀ f, f0 ≤ f →
    parse_elements f acc
      (join_comma (map JSON_stringify items) +:+ String "]" rest) =
    POk (VArr (acc ++ items)) rest.
Proof.
  induction 1 as [|x items Hx Hitems IH]; [done|]. intros _ acc rest.
  destruct items as [|y items].
  - destruct (Hx (String "]" rest) eq_refl) as [f1 H1].
    exists (S f1). intros [|f] Hf; [lia|]. simpl join_comma.
    apply parse_elements_last, H1. lia.
  - destruct (Hx (String "," (join_comma (map JSON_stringify (y :: items))
                                +:+ String "]" rest)) eq_refl) as [f1 H1].
    destruct (IH ltac:(done) (acc ++ [x]) rest) as [f2 H2].
    exists (S (max f1 f2)). intros [|f] Hf; [lia|].
    change (join_comma (map JSON_stringify (x :: y :: items))) with
      (JSON_stringify x +:+ "," +:+
       join_comma (map JSON_stringify (y :: items))).
    rewrite !app_assoc_text, app_cons, app_empty_l.
    rewrite (parse_elements_more _ _ _ _ _ (H1 f ltac:(lia))).
    rewrite H2 by lia. by rewrite <- app_assoc.
Qed.

Lemma members_read_back fields :
  Forall (λ kv, reads_back kv.2) fields → fields ≠ [] →
  Forall (λ kv, is_array_index kv.1 = false) fields →
  ∀ acc rest, NoDup (map fst (acc ++ fields)) →
    ∃ f0, ∀ f, f0 ≤ f →
      parse_members f acc
        (join_comma
           (map (λ kv, member_text kv.1 (JSON_stringify kv.2)) fields)
         +:+ String "}" rest) =
      POk (VObj (acc ++ fields)) rest.
Proof.
  induction 1 as [|[k v] fields Hx Hfields IH]; [done|].
  intros _ Hidx acc rest Hnd.
  apply Forall_cons in Hidx as [Hk Hidx]. simpl in Hk, Hx.
  assert (k ∉ map fst acc) as Hfresh.
  { rewrite map_app in Hnd. simpl in Hnd.
    apply NoDup_app in Hnd as (_ & Hd & _). intros Hin.
    apply (Hd k Hin). by left. }
  assert (NoDup (map fst ((acc ++ [(k, v)]) ++ fields))) as Hnd'
    by (by rewrite <- app_assoc).
  destruct fields as [|kv' fields].
  - destruct (Hx (String "}" rest) eq_refl) as [f1 H1].
    exists (S f1). intros [|f] Hf; [lia|]. simpl join_comma.
    unfold member_text. rewrite !app_assoc_text.
    destruct (read_string_quote k
                (":" +:+ JSON_stringify v +:+ String "}" rest))
      as (u & -> & Hu).
    rewrite (parse_members_last _ _ _ _ _ _ _ Hu (H1 f ltac:(lia))).
    by rewrite obj_set_fresh.
  - set (tail := join_comma
                   (map (λ kv, member_text kv.1 (JSON_stringify kv.2))
                      (kv' :: fields))) in *.
    destruct (Hx (String "," (tail +:+ String "}" rest)) eq_refl)
      as [f1 H1].
    destruct (IH ltac:(done) Hidx (acc ++ [(k, v)]) rest Hnd') as [f2 H2].
    exists (S (max f1 f2)). intros [|f] Hf; [lia|].
    change (join_comma
              (map (λ kv, member_text kv.1 (JSON_stringify kv.2))
                 ((k, v) :: kv' :: fields))) with
      (member_text k (JSON_stringify v) +:+ "," +:+ tail).
    unfold member_text. rewrite !app_assoc_text.
    destruct (read_string_quote k
                (":" +:+ JSON_stringify v +:+ "," +:+ tail +:+
                 String "}" rest)) as (u & -> & Hu).
    rewrite (parse_members_more _ _ _ _ _ _ _ Hu (H1 f ltac:(lia))).
    rewrite obj_set_fresh by done. rewrite H2 by lia.
    by rewrite <- app_assoc.
Qed.

Lemma starts_value_stringify v : plain v → starts_value (JSON_stringify v) = true.
Proof.
  destruct 1 as [|[]|n [t Hn]| | |]; try done.
  simpl. rewrite Hn. simpl. by eapply starts_value_numeral.
Qed.

Lemma reads_back_plain v : plain v → reads_back v.
Proof.
  induction v as [|b|n|s|items IH|fields IH] using value_ind;
    intros Hp rest Hrest.
  - exists 1. by intros [|f] Hf; [lia|].
  - exists 1. by intros [|f] Hf; [lia|]; destruct b.
  - inversion Hp as [| |? [t Hn]| | |]; subst.
    exists 1. intros [|f] Hf; [lia|]. simpl JSON_stringify. rewrite Hn.
    by apply parse_value_number.
  - exists 1. intros [|f] Hf; [lia|]. simpl JSON_stringify.
    destruct (read_string_quote s rest) as (u & -> & Hu).
    change (parse_value (S f) (String quote_char u)) with
      (match read_string None u with
       | Some (str, r') => POk (VStr str) r'
       | None => PErr
       end).
    by rewrite Hu.
  - inversion Hp as [| | | |? Hall|]; subst.
    destruct items as [|x items].
    { exists 1. by intros [|f] Hf; [lia|]. }
    assert (Forall reads_back (x :: items)) as Hrb.
    { clear Hp. induction IH as [|y l Hy Hl IHl]; [done|].
      apply Forall_cons in Hall as [Hpy Hpl].
      constructor; [by apply Hy | by apply IHl]. }
    destruct (elements_read_back _ Hrb ltac:(done) [] rest) as [f0 H0].
    exists (S f0). intros [|f] Hf; [lia|].
    change (JSON_stringify (VArr (x :: items)) +:+ rest) with
      (String "[" ((join_comma (map JSON_stringify (x :: items)) +:+ "]")
                   +:+ rest)).
    rewrite app_assoc_text. change ("]" +:+ rest) with (String "]" rest).
    rewrite parse_value_array.
    + apply H0. lia.
    + apply Forall_cons in Hall as [Hpx _].
      pose proof (starts_value_stringify x Hpx) as Hs.
      simpl map. destruct items; simpl join_comma; [done|].
      destruct (JSON_stringify x); done.
  - inversion Hp as [| | | | |? Hnd Hidx Hall]; subst.
    destruct fields as [|[k x] fields].
    { exists 1. by intros [|f] Hf; [lia|]. }
    assert (Forall (λ kv, reads_back kv.2) ((k, x) :: fields)) as Hrb.
    { clear Hp Hnd Hidx. induction IH as [|y l Hy Hl IHl]; [done|].
      apply Forall_cons in Hall as [Hpy Hpl].
      constructor; [by apply Hy | by apply IHl]. }
    destruct (members_read_back _ Hrb ltac:(done) Hidx [] rest Hnd)
      as [f0 H0].
    exists (S f0). intros [|f] Hf; [lia|].
    change (JSON_stringify (VObj ((k, x) :: fields)) +:+ rest) with
      (String "{"
         ((join_comma
             (map (λ kv, member_text kv.1 (JSON_stringify kv.2))
                ((k, x) :: fields)) +:+ "}") +:+ rest)).
    rewrite app_assoc_text. change ("}" +:+ rest) with (String "}" rest).
    specialize (H0 f ltac:(lia)). revert H0.
    simpl map.
    assert (∃ u, ∀ tl, join_comma
              (member_text k (JSON_stringify x) :: tl) +:+ String "}" rest
              = String quote_char (u tl)) as [u Hu].
    { exists (λ tl, match tl with
                    | [] => escape k +:+ String quote_char ""
                            +:+ ":" +:+ JSON_stringify x +:+ String "}" rest
                    | _ => (escape k +:+ String quote_char "") +:+ ":" +:+
                           (JSON_stringify x +:+ "," +:+ join_comma tl)
                           +:+ String "}" rest
                    end).
      intros [|y tl]; simpl join_comma; unfold member_text, quote;
        rewrite ?app_cons, ?app_assoc_text; done. }
    rewrite Hu. rewrite parse_value_object. done.
Qed.

(** *** Fuel *)

Lemma parse_value_step fuel s :
  parse_value (S fuel) s =
  value_step (parse_elements fuel) (parse_members fuel) s.
Proof.
  unfold value_step. simpl.
  destruct (skip_ws s) as [|c r]; [done|].
  cases_char c; try reflexivity;
    (destruct (skip_ws r) as [|c' r']; [done|]; cases_char c'; reflexivity).
Qed.

Lemma parse_elements_step fuel acc s :
  parse_elements (S fuel) acc s =
  elements_step (parse_value fuel) (parse_elements fuel) acc s.
Proof.
  unfold elements_step. rewrite parse_elements_S.
  destruct (parse_value fuel s) as [v r| |]; try done.
  destruct (skip_ws r) as [|c r']; [done|]. cases_char c; reflexivity.
Qed.

Lemma parse_members_step fuel acc s :
  parse_members (S fuel) acc s =
  members_step (parse_value fuel) (parse_members fuel) acc s.
Proof.
  unfold members_step. simpl.
  destruct (skip_ws s) as [|c r]; [done|].
  destruct (decide (c = quote_char)); [|done].
  destruct (read_string None r) as [[k r1]|]; [|done].
  destruct (skip_ws r1) as [|c1 r2]; [done|].
  cases_char c1; try reflexivity.
  destruct (parse_value fuel r2) as [v r3| |]; try done.
  destruct (skip_ws r3) as [|c3 r4]; [done|]. cases_char c3; reflexivity.
Qed.

(** A result other than [PFuel] is kept when more fuel is given. *)

Lemma value_step_mono pe pe' pm pm' s r :
  (∀ acc s r, pe acc s = r → r ≠ PFuel → pe' acc s = r) →
  (∀ acc s r, pm acc s = r → r ≠ PFuel → pm' acc s = r) →
  value_step pe pm s = r → r ≠ PFuel → value_step pe' pm' s = r.
Proof.
  intros He Hm. unfold value_step.
  destruct (skip_ws s) as [|c r0]; [done|].
  repeat case_decide; try done;
    destruct (skip_ws r0) as [|c' r']; try case_decide; eauto.
Qed.

Lemma elements_step_mono pv pv' pe pe' acc s r :
  (∀ s r, pv s = r → r ≠ PFuel → pv' s = r) →
  (∀ acc s r, pe acc s = r → r ≠ PFuel → pe' acc s = r) →
  elements_step pv pe acc s = r → r ≠ PFuel →
  elements_step pv' pe' acc s = r.
Proof.
  intros Hv He. unfold elements_step.
  destruct (pv s) as [v r0| |] eqn:E.
  - rewrite (Hv _ _ E) by done.
    destruct (skip_ws r0) as [|c r']; [done|]. repeat case_decide; eauto.
  - by rewrite (Hv _ _ E).
  - by intros <-.
Qed.

Lemma members_step_mono pv pv' pm pm' acc s r :
  (∀ s r, pv s = r → r ≠ PFuel → pv' s = r) →
  (∀ acc s r, pm acc s = r → r ≠ PFuel → pm' acc s = r) →
  members_step pv pm acc s = r → r ≠ PFuel →
  members_step pv' pm' acc s = r.
Proof.
  intros Hv Hm. unfold members_step.
  destruct (skip_ws s) as [|c r0]; [done|].
  case_decide; [|done].
  destruct (read_string None r0) as [[k r1]|]; [|done].
  destruct (skip_ws r1) as [|c1 r2]; [done|].
  case_decide; [|done].
  destruct (pv r2) as [v r3| |] eqn:E.
  - rewrite (Hv _ _ E) by done.
    destruct (skip_ws r3) as [|c3 r4]; [done|]. repeat case_decide; eauto.
  - by rewrite (Hv _ _ E).
  - by intros <-.
Qed.

Lemma parse_mono_S fuel :
  (∀ s r, parse_value fuel s = r → r ≠ PFuel →
          parse_value (S fuel) s = r) ∧
  (∀ acc s r, parse_elements fuel acc s = r → r ≠ PFuel →
              parse_elements (S fuel) acc s = r) ∧
  (∀ acc s r, parse_members fuel acc s = r → r ≠ PFuel →
              parse_members (S fuel) acc s = r).
Proof.
  induction fuel as [|fuel (IHv & IHe & IHm)].
  - repeat split; by intros; subst.
  - repeat split; intros.
    + rewrite parse_value_step in *. by eapply value_step_mono.
    + rewrite parse_elements_step in *. by eapply elements_step_mono.
    + rewrite parse_members_step in *. by eapply members_step_mono.
Qed.

Lemma parse_value_mono f f' s r :
  f ≤ f' → parse_value f s = r → r ≠ PFuel → parse_value f' s = r.
Proof.
  induction 1 as [|f' Hle IH]; [done|]. intros E Hr.
  apply (parse_mono_S f'); auto.
Qed.

(** Every successful call consumes at least one character. *)

Lemma length_skip_ws s : String.length (skip_ws s) ≤ String.length s.
Proof.
  induction s as [|c s IH]; [done|]. simpl.
  destruct (is_json_ws c); simpl; lia.
Qed.

Lemma skip_ws_length s c r :
  skip_ws s = String c r → String.length r < String.length s.
Proof.
  intros E. pose proof (length_skip_ws s) as H. rewrite E in H.
  simpl in H. lia.
Qed.

Lemma prepend_Some p o x r :
  prepend p o = Some (x, r) → ∃ x', o = Some (x', r).
Proof. destruct o as [[x' r']|]; [|done]. intros [= <- <-]. by eexists. Qed.

Lemma read_string_cases pending c r :
  read_string pending (String c r) =
  if decide (c = quote_char) then Some (flush pending, r)
  else if decide (c = backslash) then
    match r with
    | String e r' =>
        if decide (e = "u"%char) then
          match r' with
          | String x1 (String x2 (String x3 (String x4 r''))) =>
              match hex4 x1 x2 x3 x4 with
              | Some u =>
                  if is_high_surrogate u
                  then prepend (flush pending) (read_string (Some u) r'')
                  else if is_low_surrogate u then
                    match pending with
                    | Some h =>
                        prepend
                          (utf8 (65536 + (h - 55296) * 1024 + (u - 56320))%N)
                          (read_string None r'')
                    | None => prepend replacement (read_string None r'')
                    end
                  else prepend (flush pending +:+ utf8 u)
                         (read_string None r'')
              | None => None
              end
          | _ => None
          end
        else
          match simple_escape e with
          | Some ch =>
              prepend (flush pending +:+ String ch "") (read_string None r')
          | None => None
          end
    | EmptyString => None
    end
  else if (N_of_ascii c <? 32)%N then None
  else prepend (flush pending +:+ String c "") (read_string None r).
Proof.
  simpl. repeat case_decide; try done.
  destruct r as [|e r']; [done|].
  cases_char e; reflexivity.
Qed.

Lemma read_string_length n :
  ∀ s pending x r,
    String.length s ≤ n → read_string pending s = Some (x, r) →
    String.length r < String.length s.
Proof.
  induction n as [|n IH]; intros [|c s] pending x r Hn; try done.
  { simpl in Hn. lia. }
  rewrite read_string_cases. simpl in Hn.
  repeat case_decide.
  - intros [= <- <-]. simpl. lia.
  - destruct s as [|e s]; [done|]. case_decide.
    + destruct s as [|x1 [|x2 [|x3 [|x4 s]]]]; try done.
      destruct (hex4 x1 x2 x3 x4) as [u|]; [|done]. simpl in *.
      destruct (is_high_surrogate u);
        [|destruct (is_low_surrogate u); [destruct pending|]];
        intros (x' & E)%prepend_Some; apply IH in E; lia.
    + destruct (simple_escape e); [|done].
      intros (x' & E)%prepend_Some. apply IH in E; simpl in *; lia.
  - destruct (N_of_ascii c <? 32)%N; [done|].
    intros (x' & E)%prepend_Some. apply IH in E; simpl in *; lia.
Qed.

Lemma num_span_length s a b :
  num_span s = (a, b) →
  String.length a + String.length b = String.length s.
Proof.
  revert a b. induction s as [|c s IH]; intros a b; simpl.
  - by intros [= <- <-].
  - destruct (is_num_char c).
    + destruct (num_span s) as [a' b']. intros [= <- <-]. simpl.
      by rewrite (IH a' b').
    + by intros [= <- <-].
Qed.

Lemma parse_number_length s v r :
  parse_number s = POk v r → String.length r < String.length s.
Proof.
  unfold parse_number. destruct (num_span s) as [a b] eqn:E.
  apply num_span_length in E.
  destruct (json_numeral a) eqn:Ha; [|done]. intros [= <- <-].
  destruct a; [done|]. simpl in E. lia.
Qed.

Lemma strip_prefix_length p s r :
  strip_prefix p s = Some r →
  String.length p + String.length r = String.length s.
Proof.
  revert s. induction p as [|a p IH]; intros s; simpl.
  - by intros [= <-].
  - destruct s as [|b s]; [done|]. case_decide; [|done].
    intros E. apply IH in E. simpl. lia.
Qed.

Lemma parse_literal_length lit v s v' r :
  lit ≠ "" → parse_literal lit v s = POk v' r →
  String.length r < String.length s.
Proof.
  intros Hl. unfold parse_literal.
  destruct (strip_prefix lit s) as [r'|] eqn:E; [|done].
  intros [= <- <-]. apply strip_prefix_length in E.
  destruct lit; [done|]. simpl in E. lia.
Qed.

Lemma value_step_length pe pm :
  shortens pe → shortens pm → shortens (λ _ : unit, value_step pe pm).
Proof.
  intros He Hm [] s v r. unfold value_step.
  destruct (skip_ws s) as [|c r0] eqn:E; [done|].
  apply skip_ws_length in E.
  assert (String.length (String c r0) ≤ String.length s) as E'
    by (simpl; lia).
  destruct (decide (c = "{"%char)); [|destruct (decide (c = "["%char));
    [|destruct (decide (c = quote_char)); [|repeat case_decide]]].
  - destruct (skip_ws r0) as [|c' r'] eqn:E0.
    + intros Hlen%Hm. lia.
    + apply skip_ws_length in E0. case_decide.
      * intros [= <- <-]. lia.
      * intros Hlen%Hm. lia.
  - destruct (skip_ws r0) as [|c' r'] eqn:E0.
    + intros Hlen%He. lia.
    + apply skip_ws_length in E0. case_decide.
      * intros [= <- <-]. lia.
      * intros Hlen%He. lia.
  - destruct (read_string None r0) as [[str r']|] eqn:E0; [|done].
    apply (read_string_length _ _ _ _ _ (le_n _)) in E0.
    intros [= <- <-]. lia.
  - intros Hlen%parse_literal_length; [lia|done].
  - intros Hlen%parse_literal_length; [lia|done].
  - intros Hlen%parse_literal_length; [lia|done].
  - simpl. intros Hlen%parse_number_length. lia.
  - simpl. destruct (is_digit c); [|done].
    intros Hlen%parse_number_length. lia.
Qed.

Lemma elements_step_length pv pe :
  shortens (λ _ : unit, pv) → shortens pe → shortens (elements_step pv pe).
Proof.
  intros Hv He acc s v r. unfold elements_step.
  destruct (pv s) as [v0 r0| |] eqn:E; try done.
  apply (Hv ()) in E.
  destruct (skip_ws r0) as [|c r'] eqn:E0; [done|].
  apply skip_ws_length in E0.
  repeat case_decide; try done.
  - intros Hlen%He. lia.
  - intros [= <- <-]. lia.
Qed.

Lemma members_step_length pv pm :
  shortens (λ _ : unit, pv) → shortens pm → shortens (members_step pv pm).
Proof.
  intros Hv Hm acc s v r. unfold members_step.
  destruct (skip_ws s) as [|c r0] eqn:E; [done|].
  apply skip_ws_length in E.
  case_decide; [|done].
  destruct (read_string None r0) as [[k r1]|] eqn:E0; [|done].
  apply (read_string_length _ _ _ _ _ (le_n _)) in E0.
  destruct (skip_ws r1) as [|c1 r2] eqn:E1; [done|].
  apply skip_ws_length in E1.
  case_decide; [|done].
  destruct (pv r2) as [v0 r3| |] eqn:E2; try done.
  apply (Hv ()) in E2.
  destruct (skip_ws r3) as [|c3 r4] eqn:E3; [done|].
  apply skip_ws_length in E3.
  repeat case_decide; try done.
  - intros Hlen%Hm. lia.
  - intros [= <- <-]. lia.
Qed.

Lemma parse_shortens fuel :
  shortens (λ _ : unit, parse_value fuel) ∧
  shortens (parse_elements fuel) ∧ shortens (parse_members fuel).
Proof.
  induction fuel as [|fuel (IHv & IHe & IHm)].
  - repeat split; by intros ????.
  - repeat split; intros acc s v r.
    + rewrite parse_value_step. by apply (value_step_length _ _ IHe IHm ()).
    + rewrite parse_elements_step. by apply elements_step_length.
    + rewrite parse_members_step. by apply members_step_length.
Qed.

(** The fuel [JSON_parse] gives is enough: it never answers [PFuel]. *)

Lemma parse_number_fuel s : parse_number s ≠ PFuel.
Proof.
  unfold parse_number. destruct (num_span s) as [a b].
  by destruct (json_numeral a).
Qed.

Lemma parse_literal_fuel lit v s : parse_literal lit v s ≠ PFuel.
Proof. unfold parse_literal. by destruct (strip_prefix lit s). Qed.

Lemma value_step_fuel pe pm s :
  (∀ acc s', String.length s' < String.length s → pe acc s' ≠ PFuel) →
  (∀ acc s', String.length s' < String.length s → pm acc s' ≠ PFuel) →
  value_step pe pm s ≠ PFuel.
Proof.
  intros He Hm. unfold value_step.
  destruct (skip_ws s) as [|c r0] eqn:E; [done|].
  apply skip_ws_length in E.
  destruct (decide (c = "{"%char)); [|destruct (decide (c = "["%char));
    [|destruct (decide (c = quote_char)); [|repeat case_decide]]];
    try done.
  - destruct (skip_ws r0) as [|c' r']; [by apply Hm|].
    case_decide; [done | by apply Hm].
  - destruct (skip_ws r0) as [|c' r']; [by apply He|].
    case_decide; [done | by apply He].
  - by destruct (read_string None r0) as [[str r']|].
  - apply parse_literal_fuel.
  - apply parse_literal_fuel.
  - apply parse_literal_fuel.
  - simpl. apply parse_number_fuel.
  - simpl. destruct (is_digit c); [apply parse_number_fuel | done].
Qed.

Lemma elements_step_fuel pv pe acc s :
  pv s ≠ PFuel → shortens (λ _ : unit, pv) →
  (∀ acc s', String.length s' + 2 ≤ String.length s → pe acc s' ≠ PFuel) →
  elements_step pv pe acc s ≠ PFuel.
Proof.
  intros Hv Hs He. unfold elements_step.
  destruct (pv s) as [v0 r0| |] eqn:E; try done.
  apply (Hs ()) in E.
  destruct (skip_ws r0) as [|c r'] eqn:E0; [done|].
  apply skip_ws_length in E0.
  repeat case_decide; try done. apply He. lia.
Qed.

Lemma members_step_fuel pv pm acc s :
  (∀ s', String.length s' < String.length s → pv s' ≠ PFuel) →
  shortens (λ _ : unit, pv) →
  (∀ acc s', String.length s' + 2 ≤ String.length s → pm acc s' ≠ PFuel) →
  members_step pv pm acc s ≠ PFuel.
Proof.
  intros Hv Hs Hm. unfold members_step.
  destruct (skip_ws s) as [|c r0] eqn:E; [done|].
  apply skip_ws_length in E.
  case_decide; [|done].
  destruct (read_string None r0) as [[k r1]|] eqn:E0; [|done].
  apply (read_string_length _ _ _ _ _ (le_n _)) in E0.
  destruct (skip_ws r1) as [|c1 r2] eqn:E1; [done|].
  apply skip_ws_length in E1.
  case_decide; [|done].
  destruct (pv r2) as [v0 r3| |] eqn:E2; try done.
  - apply (Hs ()) in E2.
    destruct (skip_ws r3) as [|c3 r4] eqn:E3; [done|].
    apply skip_ws_length in E3.
    repeat case_decide; try done. apply Hm. lia.
  - exfalso. revert E2. apply Hv. lia.
Qed.

Lemma parse_enough_fuel fuel :
  (∀ s, 2 * String.length s < fuel → parse_value fuel s ≠ PFuel) ∧
  (∀ acc s, 2 * String.length s + 1 < fuel →
            parse_elements fuel acc s ≠ PFuel) ∧
  (∀ acc s, 2 * String.length s + 1 < fuel →
            parse_members fuel acc s ≠ PFuel).
Proof.
  induction fuel as [|fuel (IHv & IHe & IHm)].
  - repeat split; intros; lia.
  - destruct (parse_shortens fuel) as (Sv & Se & Sm).
    repeat split; intros.
    + rewrite parse_value_step.
      apply value_step_fuel; intros; [apply IHe | apply IHm]; lia.
    + rewrite parse_elements_step.
      apply elements_step_fuel; [apply IHv; lia | done |].
      intros. apply IHe. lia.
    + rewrite parse_members_step.
      apply members_step_fuel; [intros; apply IHv; lia | done |].
      intros. apply IHm. lia.
Qed.

(** [JSON.parse] either returns a value or throws: with the fuel of
    [JSON_parse] the descent always ends. *)
Lemma JSON_parse_fuel s : parse_value (S (2 * String.length s)) s ≠ PFuel.
Proof. apply parse_enough_fuel. lia. Qed.

(** [JSON.parse (JSON.stringify v)] is [v], for a plain [v]. *)
Theorem JSON_parse_stringify v :
  plain v → JSON_parse (JSON_stringify v) = Some v.
Proof.
  intros Hp. destruct (reads_back_plain v Hp "" eq_refl) as [f0 H0].
  rewrite app_empty_r in H0. unfold JSON_parse.
  set (t := JSON_stringify v) in *. set (F := S (2 * String.length t)).
  pose proof (JSON_parse_fuel t) as HF. fold F in HF.
  pose proof (parse_value_mono F (max F f0) t _ ltac:(lia) eq_refl HF) as E.
  rewrite H0 in E by lia. by rewrite <- E.
Qed.

(** ** Records: properties, sorting and plainness *)

Lemma obj_get_Some_elem k v (fields : list (string * value)) :
  obj_get k fields = Some v → (k, v) ∈ fields.
Proof.
  induction fields as [|[k' v'] l IH]; [done|]. simpl.
  case_decide; [intros [= <-]; subst; by left | right; by apply IH].
Qed.

Lemma obj_get_is_Some k (fields : list (string * value)) :
  k ∈ map fst fields → is_Some (obj_get k fields).
Proof.
  induction fields as [|[k' v'] l IH]; simpl.
  - by intros ?%elem_of_nil.
  - intros [->|Hin]%elem_of_cons; case_decide; try done; by apply IH.
Qed.

Lemma obj_get_map_values (g : value → value) k fields :
  obj_get k (map (λ kv, (kv.1, g kv.2)) fields) = g <$> obj_get k fields.
Proof.
  induction fields as [|[k' v'] l IH]; [done|]. simpl.
  by case_decide.
Qed.

Lemma obj_get_keyed (g : string → value) k (keys : list string) :
  obj_get k (map (λ k', (k', g k')) keys) =
  if decide (k ∈ keys) then Some (g k) else None.
Proof.
  induction keys as [|k' l IH]; [done|]. simpl.
  destruct (decide (k' = k)) as [E|E].
  - subst. rewrite decide_True; [done | by left].
  - rewrite IH. destruct (decide (k ∈ l)) as [Hin|Hn].
    + rewrite decide_True; [done | by right].
    + rewrite decide_False; [done|].
      intros [->|?]%elem_of_cons; done.
Qed.

Lemma keys_sorted_fields fields :
  map fst (sorted_fields fields) = merge_sort String.le (map fst fields).
Proof.
  unfold sorted_fields. rewrite map_map. simpl. apply map_id.
Qed.

(** Sorting keeps every property and its value. *)
Lemma obj_get_sorted_fields k fields :
  obj_get k (sorted_fields fields) = obj_get k fields.
Proof.
  unfold sorted_fields. rewrite obj_get_keyed.
  destruct (decide (k ∈ merge_sort String.le (map fst fields))) as [Hin|Hn].
  - rewrite merge_sort_Permutation in Hin.
    by destruct (obj_get_is_Some _ _ Hin) as [v ->].
  - rewrite merge_sort_Permutation in Hn.
    destruct (obj_get k fields) as [v|] eqn:E; [|done].
    exfalso. apply Hn. apply obj_get_Some_elem in E.
    change k with ((k, v).1). by apply list_elem_of_fmap_2.
Qed.

Lemma sorted_fields_idemp fields :
  sorted_fields (sorted_fields fields) = sorted_fields fields.
Proof.
  unfold sorted_fields at 1. rewrite keys_sorted_fields.
  rewrite (sorted_keys_Permutation _ (map fst fields))
    by apply merge_sort_Permutation.
  unfold sorted_fields at 2. apply map_ext. intros k.
  by rewrite obj_get_sorted_fields.
Qed.

Lemma sortKeysRecursive_idemp v :
  sortKeysRecursive (sortKeysRecursive v) = sortKeysRecursive v.
Proof.
  induction v as [|b|n|s|items IH|fields IH] using value_ind; try done.
  - simpl. f_equal. rewrite map_map.
    induction IH as [|x l Hx Hl IHl]; [done|]. simpl. by rewrite Hx, IHl.
  - rewrite !sortKeysRecursive_obj.
    set (norm := λ kv : string * value, (kv.1, sortKeysRecursive kv.2)).
    assert (map norm (sorted_fields (map norm fields)) =
            sorted_fields (map norm fields)) as ->.
    { unfold sorted_fields. rewrite map_map. apply map_ext_Forall.
      apply Forall_forall. intros k _. unfold norm at 1. simpl. f_equal.
      unfold norm. rewrite obj_get_map_values.
      destruct (obj_get k fields) as [x|] eqn:E; [|done]. simpl.
      apply obj_get_Some_elem in E.
      rewrite Forall_forall in IH. apply (IH _ E). }
    by rewrite sorted_fields_idemp.
Qed.

(** The text every write stores is the JSON text of the sorted record. *)
Lemma encode_sorted v : encode v = JSON_stringify (sortKeysRecursive v).
Proof. unfold encode, stringify. by rewrite sortKeysRecursive_idemp. Qed.

Lemma plain_sorted_fields fields :
  plain (VObj fields) → plain (VObj (sorted_fields fields)).
Proof.
  intros Hp. inversion Hp as [| | | | |? Hnd Hidx Hall]; subst.
  constructor.
  - rewrite keys_sorted_fields. by rewrite merge_sort_Permutation.
  - apply Forall_forall. intros [k v] Hin.
    assert (k ∈ map fst (sorted_fields fields)) as Hk.
    { change k with ((k, v).1). by apply list_elem_of_fmap_2. }
    rewrite keys_sorted_fields, merge_sort_Permutation in Hk.
    apply list_elem_of_fmap in Hk as ([k' v'] & -> & Hin').
    rewrite Forall_forall in Hidx. apply (Hidx _ Hin').
  - apply Forall_forall. intros [k v] Hin. simpl.
    unfold sorted_fields in Hin.
    apply list_elem_of_fmap in Hin as (k' & [= -> ->] & Hin').
    destruct (obj_get k' fields) as [x|] eqn:E; simpl; [|constructor].
    apply obj_get_Some_elem in E.
    rewrite Forall_forall in Hall. apply (Hall _ E).
Qed.

Lemma plain_sortKeysRecursive v : plain v → plain (sortKeysRecursive v).
Proof.
  induction v as [|b|n|s|items IH|fields IH] using value_ind;
    intros Hp; try done.
  - inversion Hp as [| | | |? Hall|]; subst. simpl. constructor.
    clear Hp. induction IH as [|x l Hx Hl IHl]; [done|].
    apply Forall_cons in Hall as [Hpx Hpl].
    simpl. constructor; [by apply Hx | by apply IHl].
  - rewrite sortKeysRecursive_obj. apply plain_sorted_fields.
    inversion Hp as [| | | | |? Hnd Hidx Hall]; subst. constructor.
    + by rewrite map_map.
    + clear -Hidx. induction Hidx; simpl; by constructor.
    + clear Hp Hnd Hidx. induction IH as [|x l Hx Hl IHl]; [done|].
      apply Forall_cons in Hall as [Hpx Hpl].
      simpl. constructor; [by apply Hx | by apply IHl].
Qed.

(** What was encoded is read back sorted. *)
Lemma JSON_parse_encode v :
  plain v → JSON_parse (encode v) = Some (sortKeysRecursive v).
Proof.
  intros Hp. rewrite encode_sorted.
  by apply JSON_parse_stringify, plain_sortKeysRecursive.
Qed.

(** ** Create and read *)

Lemma stored_insert w id t its f :
  stored {| state := <[id := t]> (state w); iterators := its;
            scan_fault := f |} id = t.
Proof. unfold stored. simpl. by rewrite lookup_insert_eq. Qed.

Lemma present_insert w id t its f :
  t ≠ "" →
  present {| state := <[id := t]> (state w); iterators := its;
             scan_fault := f |} id = true.
Proof. intros Ht. apply present_stored. by rewrite stored_insert. Qed.

Lemma asset_text_nonempty a c i o z : asset_text a c i o z ≠ "".
Proof. done. Qed.

Lemma plain_created id color owner (size appraisedValue : number) :
  is_Some (num_json size) → is_Some (num_json appraisedValue) →
  plain (VObj [("ID", VStr id); ("Color", VStr color); ("Size", VNum size);
               ("Owner", VStr owner);
               ("AppraisedValue", VNum appraisedValue)]).
Proof.
  intros Hs Ha. constructor.
  - compute_done.
  - repeat constructor.
  - repeat constructor; done.
Qed.

Lemma plain_updated id color owner size appraisedValue :
  plain (VObj [("ID", VStr id); ("Color", VStr color); ("Size", VStr size);
               ("Owner", VStr owner);
               ("AppraisedValue", VStr appraisedValue)]).
Proof.
  constructor; [compute_done | repeat constructor | repeat constructor].
Qed.

(** C2, amended.  When [id] is absent and the conversions of [size]
    and [appraisedValue] are finite numbers, [CreateAsset] followed by
    [ReadAsset] returns the stored text unmodified, and that text is the
    record of the five created values, [Size] and [AppraisedValue] as
    numbers. *)
Theorem create_read_round_trip_finite w id color size owner appraisedValue :
  present w id = false →
  is_Some (num_json (Number size)) →
  is_Some (num_json (Number appraisedValue)) →
  create_read_round_trip w id color size owner appraisedValue.
Proof.
  intros Hp Hs Ha. unfold create_read_round_trip.
  rewrite (CreateAsset_absent _ _ _ _ _ _ Hp).
  eexists _, _, _, _, _. split; [reflexivity|].
  rewrite ReadAsset_present
    by (apply present_insert, asset_text_nonempty).
  split; [reflexivity|]. split; [reflexivity|]. split; [reflexivity|].
  rewrite stored_insert, <- encode_created.
  rewrite JSON_parse_encode by (by apply plain_created).
  split; [reflexivity|]. repeat split; reflexivity.
Qed.

(** ** Assigning a property *)

Lemma obj_get_replace_eq k v (fields : list (string * value)) :
  is_Some (obj_get k fields) → obj_get k (obj_replace k v fields) = Some v.
Proof.
  induction fields as [|[k' v'] l IH]; simpl.
  - by intros [? ?].
  - destruct (decide (k' = k)) as [->|Hne]; simpl.
    + by rewrite decide_True.
    + rewrite decide_False by done. apply IH.
Qed.

Lemma obj_get_replace_ne k k' v (fields : list (string * value)) :
  k' ≠ k → obj_get k' (obj_replace k v fields) = obj_get k' fields.
Proof.
  intros Hne. induction fields as [|[k0 v0] l IH]; [done|]. simpl.
  destruct (decide (k0 = k)) as [->|Hk]; simpl.
  - rewrite !decide_False by done. done.
  - destruct (decide (k0 = k')); [done | apply IH].
Qed.

Lemma obj_get_insert_index_eq k v (fields : list (string * value)) :
  obj_get k (obj_insert_index k v fields) = Some v.
Proof.
  induction fields as [|[k' v'] l IH]; simpl.
  - by rewrite decide_True.
  - destruct (_ && _) eqn:E; simpl.
    + destruct (decide (k' = k)) as [->|]; [|apply IH].
      apply andb_true_iff in E as [_ E]. apply N.ltb_lt in E. lia.
    + by rewrite decide_True.
Qed.

Lemma obj_get_insert_index_ne k k' v (fields : list (string * value)) :
  k' ≠ k → obj_get k' (obj_insert_index k v fields) = obj_get k' fields.
Proof.
  intros Hne. induction fields as [|[k0 v0] l IH]; simpl.
  - by rewrite decide_False.
  - destruct (_ && _); simpl.
    + destruct (decide (k0 = k')); [done | apply IH].
    + by rewrite decide_False.
Qed.

Lemma obj_get_app k (f1 f2 : list (string * value)) :
  obj_get k (f1 ++ f2) =
  match obj_get k f1 with
  | Some v => Some v
  | None => obj_get k f2
  end.
Proof.
  induction f1 as [|[k' v'] l IH]; [done|]. simpl.
  by destruct (decide (k' = k)).
Qed.

Lemma obj_get_set_eq k v fields : obj_get k (obj_set k v fields) = Some v.
Proof.
  unfold obj_set. destruct (obj_get k fields) as [x|] eqn:E.
  - apply obj_get_replace_eq. by rewrite E.
  - destruct (is_array_index k).
    + apply obj_get_insert_index_eq.
    + rewrite obj_get_app, E. simpl. by rewrite decide_True.
Qed.

Lemma obj_get_set_ne k k' v fields :
  k' ≠ k → obj_get k' (obj_set k v fields) = obj_get k' fields.
Proof.
  intros Hne. unfold obj_set. destruct (obj_get k fields) as [x|] eqn:E.
  - by apply obj_get_replace_ne.
  - destruct (is_array_index k).
    + by apply obj_get_insert_index_ne.
    + rewrite obj_get_app. destruct (obj_get k' fields); [done|].
      simpl. by rewrite decide_False.
Qed.

Lemma keys_obj_replace k v (fields : list (string * value)) :
  map fst (obj_replace k v fields) = map fst fields.
Proof.
  induction fields as [|[k' v'] l IH]; [done|]. simpl.
  destruct (decide (k' = k)) as [->|]; simpl; [done | by rewrite IH].
Qed.

Lemma values_obj_replace (P : value → Prop) k v fields :
  P v → Forall (λ kv, P kv.2) fields →
  Forall (λ kv, P kv.2) (obj_replace k v fields).
Proof.
  intros Hv. induction 1 as [|[k' v'] l Hx Hl IH]; [done|]. simpl.
  destruct (decide (k' = k)); constructor; done.
Qed.

Lemma obj_get_None_keys k (fields : list (string * value)) :
  obj_get k fields = None → k ∉ map fst fields.
Proof.
  intros E Hin. apply obj_get_is_Some in Hin as [v Hv]. congruence.
Qed.

Lemma plain_obj_set k v fields :
  is_array_index k = false → plain v → plain (VObj fields) →
  plain (VObj (obj_set k v fields)).
Proof.
  intros Hk Hv Hp. inversion Hp as [| | | | |? Hnd Hidx Hall]; subst.
  unfold obj_set. destruct (obj_get k fields) as [x|] eqn:E.
  - constructor.
    + by rewrite keys_obj_replace.
    + apply (Forall_fmap fst (λ k, is_array_index k = false)).
      rewrite keys_obj_replace. by apply Forall_fmap.
    + by apply values_obj_replace.
  - rewrite Hk. apply obj_get_None_keys in E. constructor.
    + rewrite map_app. simpl. apply NoDup_app. split; [done|].
      split; [|apply NoDup_singleton].
      intros k' Hin ->%list_elem_of_singleton. done.
    + apply Forall_app. split; [done|]. by constructor.
    + apply Forall_app. split; [done|]. by constructor.
Qed.

(** ** The ledger holds record texts *)

Lemma record_text_encode fields :
  plain (VObj fields) → record_text (encode (VObj fields)).
Proof.
  intros Hp. rewrite encode_sorted.
  pose proof (plain_sortKeysRecursive _ Hp) as Hp'.
  pose proof (sortKeysRecursive_idemp (VObj fields)) as Hi.
  rewrite sortKeysRecursive_obj in *. by eexists.
Qed.

Lemma record_text_parse t :
  record_text t →
  ∃ fields, JSON_parse t = Some (VObj fields) ∧ plain (VObj fields) ∧
            sortKeysRecursive (VObj fields) = VObj fields ∧
            t = JSON_stringify (VObj fields).
Proof.
  intros (fields & Hp & Hc & ->). exists fields.
  by rewrite JSON_parse_stringify.
Qed.

Lemma record_text_nonempty t : record_text t → t ≠ "".
Proof. by intros (fields & _ & _ & ->). Qed.

Lemma JSON_stringify_number_or_null n :
  JSON_stringify (number_or_null n) = number_text n.
Proof.
  unfold number_or_null, number_text.
  destruct (num_json n) as [t|] eqn:E; simpl; by rewrite ?E.
Qed.

Lemma plain_number_or_null n : plain (number_or_null n).
Proof.
  unfold number_or_null. destruct (num_json n) as [t|] eqn:E.
  - constructor. by rewrite E.
  - constructor.
Qed.

Lemma sortKeysRecursive_number_or_null n :
  sortKeysRecursive (number_or_null n) = number_or_null n.
Proof. unfold number_or_null. by destruct (num_json n). Qed.

Lemma JSON_stringify_asset_record a c i o z :
  JSON_stringify (VObj (asset_record a c i o z)) =
  asset_text (JSON_stringify a) (JSON_stringify c) (JSON_stringify i)
    (JSON_stringify o) (JSON_stringify z).
Proof. reflexivity. Qed.

Lemma sortKeysRecursive_asset_record a c i o z :
  sortKeysRecursive (VObj (asset_record a c i o z)) =
  VObj (asset_record (sortKeysRecursive a) (sortKeysRecursive c)
          (sortKeysRecursive i) (sortKeysRecursive o) (sortKeysRecursive z)).
Proof. reflexivity. Qed.

Lemma plain_asset_record a c i o z :
  plain a → plain c → plain i → plain o → plain z →
  plain (VObj (asset_record a c i o z)).
Proof.
  intros. constructor; [compute_done | repeat constructor |].
  repeat constructor; done.
Qed.

(** What [CreateAsset] writes is a record text, whatever the numbers. *)
Lemma record_text_created id color owner (size appraisedValue : number) :
  record_text (asset_text (number_text appraisedValue) (quote color)
                 (quote id) (quote owner) (number_text size)).
Proof.
  exists (asset_record (number_or_null appraisedValue) (VStr color)
            (VStr id) (VStr owner) (number_or_null size)).
  split; [|split].
  - apply plain_asset_record; try constructor; apply plain_number_or_null.
  - rewrite sortKeysRecursive_asset_record.
    by rewrite !sortKeysRecursive_number_or_null.
  - rewrite JSON_stringify_asset_record.
    by rewrite !JSON_stringify_number_or_null.
Qed.

Lemma record_text_updated id color owner size appraisedValue :
  record_text (asset_text (quote appraisedValue) (quote color) (quote id)
                 (quote owner) (quote size)).
Proof.
  rewrite <- encode_updated. apply record_text_encode, plain_updated.
Qed.

Lemma ledger_ok_insert w id t its f :
  ledger_ok w → record_text t →
  ledger_ok {| state := <[id := t]> (state w); iterators := its;
               scan_fault := f |}.
Proof.
  intros Hw Ht id' t'. simpl. rewrite lookup_insert.
  case_decide; [by intros [= <-] | apply Hw].
Qed.

Lemma ledger_ok_state w w' : state w' = state w → ledger_ok w → ledger_ok w'.
Proof. intros E Hw id t. rewrite E. apply Hw. Qed.

Lemma ledger_ok_stored w id :
  ledger_ok w → present w id = true → record_text (stored w id).
Proof.
  intros Hw Hp. apply present_stored in Hp. unfold stored in *.
  destruct (state w !! id) as [t|] eqn:E; [|done]. by apply (Hw id).
Qed.

(** ** [InitLedger] *)

Lemma InitLedger_run w :
  InitLedger w =
  (Ok (),
   {| state :=
        foldl (λ st asset,
                 <[text_property "ID" asset := encode (VObj asset)]> st)
          (state w) initial_records;
      iterators := iterators w;
      scan_fault := scan_fault w |}).
Proof. destruct w. reflexivity. Qed.

Lemma plain_asset_literal id color size owner appraisedValue :
  (Z.abs size < 2 ^ 53)%Z → (Z.abs appraisedValue < 2 ^ 53)%Z →
  plain (VObj (obj_set "docType" (VStr "asset")
                 (asset_literal id color size owner appraisedValue))).
Proof.
  intros Hs Ha. apply plain_obj_set; [done | constructor |].
  apply plain_created; by rewrite num_lit_json.
Qed.

Lemma plain_initial_records :
  Forall (λ asset, plain (VObj asset)) initial_records.
Proof.
  unfold initial_records, initial_assets. cbn [map].
  repeat (apply List.Forall_cons; [by apply plain_asset_literal|]).
  apply List.Forall_nil.
Qed.

Lemma ledger_ok_foldl records st its f :
  Forall (λ asset, plain (VObj asset)) records →
  ledger_ok {| state := st; iterators := its; scan_fault := f |} →
  ledger_ok
    {| state :=
         foldl (λ st asset,
                  <[text_property "ID" asset := encode (VObj asset)]> st)
           st records;
       iterators := its; scan_fault := f |}.
Proof.
  intros Hr. revert st. induction Hr as [|x l Hx Hl IH]; intros st Hw; [done|].
  simpl. apply IH.
  apply (ledger_ok_insert {| state := st; iterators := its;
                             scan_fault := f |}); [done|].
  by apply record_text_encode.
Qed.

(** ** [TransferAsset] *)

Lemma TransferAsset_absent w id newOwner :
  present w id = false →
  TransferAsset id newOwner w = (Throw (AssetDoesNotExist id), w).
Proof.
  intros Hp. unfold TransferAsset, bind. by rewrite ReadAsset_absent.
Qed.

Lemma TransferAsset_object w id newOwner fields :
  present w id = true →
  JSON_parse (stored w id) = Some (VObj fields) →
  TransferAsset id newOwner w =
  (Ok (obj_get "Owner" fields),
   {| state :=
        <[id := encode (VObj (obj_set "Owner" (VStr newOwner) fields))]>
          (state w);
      iterators := iterators w;
      scan_fault := scan_fault w |}).
Proof.
  intros Hp Hf. unfold TransferAsset, bind.
  rewrite ReadAsset_present by done. by rewrite Hf.
Qed.

(** ** Every reachable ledger holds record texts *)

Lemma ledger_ok_world_after c w : ledger_ok w → ledger_ok (world_after c w).
Proof.
  intros Hw. destruct c; unfold world_after.
  - rewrite InitLedger_run. destruct w as [st its f].
    apply (ledger_ok_foldl initial_records st its f);
      [apply plain_initial_records | done].
  - destruct (present w id) eqn:Hp.
    + by rewrite CreateAsset_present.
    + rewrite CreateAsset_absent by done. simpl.
      apply ledger_ok_insert; [done | apply record_text_created].
  - destruct (present w id) eqn:Hp.
    + by rewrite ReadAsset_present.
    + by rewrite ReadAsset_absent.
  - destruct (present w id) eqn:Hp.
    + rewrite UpdateAsset_present by done. simpl.
      apply ledger_ok_insert; [done | apply record_text_updated].
    + by rewrite UpdateAsset_absent.
  - unfold DeleteAsset, bind. rewrite AssetExists_run.
    destruct (present w id); simpl; [|done].
    intros id' t. simpl. rewrite lookup_delete.
    case_decide; [done | apply Hw].
  - done.
  - destruct (present w id) eqn:Hp.
    + destruct (record_text_parse _ (ledger_ok_stored _ _ Hw Hp))
        as (fields & Hf & Hpl & _).
      rewrite (TransferAsset_object _ _ _ _ Hp Hf). simpl.
      apply ledger_ok_insert; [done|]. apply record_text_encode.
      apply plain_obj_set; [done | constructor | done].
    + by rewrite TransferAsset_absent.
  - rewrite GetAllAssets_run. simpl. by apply (ledger_ok_state w).
Qed.

Theorem reachable_ledger_ok w : reachable w → ledger_ok w.
Proof.
  induction 1 as [|c w Hr IH|f w Hr IH].
  - intros id t. simpl. by rewrite lookup_empty.
  - by apply ledger_ok_world_after.
  - by apply (ledger_ok_state w).
Qed.

(** ** Transfer, update and the listing *)


Lemma keys_map_values (g : value → value) (fields : list (string * value)) :
  map fst (map (λ kv, (kv.1, g kv.2)) fields) = map fst fields.
Proof. by rewrite map_map. Qed.

Lemma TransferAsset_other w id newOwner id' :
  id' ≠ id →
  state (TransferAsset id newOwner w).2 !! id' = state w !! id'.
Proof.
  intros Hne. destruct (present w id) eqn:Hp.
  - unfold TransferAsset, bind. rewrite ReadAsset_present by done.
    destruct (JSON_parse (stored w id)) as [[]|]; try done;
      simpl; by rewrite lookup_insert_ne.
  - by rewrite TransferAsset_absent.
Qed.

(** ** Transfer on any stored record *)












End Properties.

(** * Further properties of the contract *)

Section MoreProperties.
Context `{NM : NumberModel}.

(** ** Writing a list of records, as [InitLedger] does *)

Section Writes.
Context {A : Type} (key val : A → string).

Let write (st : gmap string string) (a : A) : gmap string string :=
  <[key a := val a]> st.

Lemma lookup_writes_other l st k :
  k ∉ map key l → foldl write st l !! k = st !! k.
Proof.
  revert st. induction l as [|a l IH]; intros st Hk; [done|].
  apply not_elem_of_cons in Hk as [Hne Hk]. simpl.
  rewrite IH by done. unfold write. by rewrite lookup_insert_ne.
Qed.

Lemma lookup_writes_same l st st' k :
  k ∈ map key l → foldl write st l !! k = foldl write st' l !! k.
Proof.
  revert st st'. induction l as [|a l IH]; intros st st' Hk.
  - by apply elem_of_nil in Hk.
  - simpl. destruct (decide (k ∈ map key l)) as [Hin|Hn].
    + by apply IH.
    + rewrite !lookup_writes_other by done.
      apply elem_of_cons in Hk as [->|]; [|done].
      unfold write. by rewrite !lookup_insert_eq.
Qed.

Lemma lookup_writes_value l st a :
  NoDup (map key l) → a ∈ l → foldl write st l !! key a = Some (val a).
Proof.
  revert st. induction l as [|a0 l IH]; intros st Hnd Ha.
  - by apply elem_of_nil in Ha.
  - simpl in Hnd. apply NoDup_cons in Hnd as [Hn0 Hnd]. simpl.
    apply elem_of_cons in Ha as [->|Ha].
    + rewrite lookup_writes_other by done.
      unfold write. by rewrite lookup_insert_eq.
    + by apply IH.
Qed.

Lemma writes_idempotent l st :
  foldl write (foldl write st l) l = foldl write st l.
Proof.
  apply map_eq. intros k. destruct (decide (k ∈ map key l)) as [Hin|Hn].
  - by apply lookup_writes_same.
  - by rewrite lookup_writes_other.
Qed.

End Writes.

Lemma initial_keys :
  map (text_property "ID") initial_records =
  ["asset1"; "asset2"; "asset3"; "asset4"; "asset5"; "asset6"].
Proof. reflexivity. Qed.

Lemma InitLedger_state w :
  state (InitLedger w).2 =
  foldl (λ st asset, <[text_property "ID" asset := encode (VObj asset)]> st)
    (state w) initial_records.
Proof. by rewrite InitLedger_run. Qed.

(** ** [DeleteAsset], [AssetExists] and [ReadAsset] *)

Lemma DeleteAsset_run w id :
  DeleteAsset id w =
  if present w id
  then (Ok (), {| state := delete id (state w); iterators := iterators w;
                  scan_fault := scan_fault w |})
  else (Throw (AssetDoesNotExist id), w).
Proof.
  unfold DeleteAsset, bind. rewrite AssetExists_run.
  by destruct (present w id).
Qed.

(** X1.  [DeleteAsset] of a present asset removes its key and no other:
    afterwards [AssetExists] answers false and [ReadAsset] throws "does
    not exist".  Of an absent asset it throws "does not exist" and changes
    nothing. *)
Theorem DeleteAsset_removes w id :
  (present w id = true →
   ∃ w', DeleteAsset id w = (Ok (), w') ∧
     state w' !! id = None ∧
     AssetExists id w' = (Ok false, w') ∧
     ReadAsset id w' = (Throw (AssetDoesNotExist id), w') ∧
     (∀ id', id' ≠ id → state w' !! id' = state w !! id')) ∧
  (present w id = false →
   DeleteAsset id w = (Throw (AssetDoesNotExist id), w)).
Proof.
  rewrite DeleteAsset_run. split; intros Hp; rewrite Hp; [|done].
  eexists. split; [done|].
  assert (present {| state := delete id (state w);
                     iterators := iterators w;
                     scan_fault := scan_fault w |} id = false) as Hp'.
  { unfold present. simpl. by rewrite lookup_delete_eq. }
  split; [apply lookup_delete_eq|].
  split; [by rewrite AssetExists_run, Hp'|].
  split; [by apply ReadAsset_absent|].
  intros id' Hne. simpl. by rewrite lookup_delete_ne.
Qed.

(** X2.  The presence test is one: for every key either the store holds
    a non-empty text, [AssetExists] answers true and [ReadAsset] returns
    that text, or the store holds nothing or an empty text, [AssetExists]
    answers false and [ReadAsset] throws "does not exist".  Neither call
    changes the world. *)
Theorem AssetExists_agrees_with_ReadAsset w id :
  (∃ t, state w !! id = Some t ∧ t ≠ "" ∧
        AssetExists id w = (Ok true, w) ∧ ReadAsset id w = (Ok t, w)) ∨
  ((state w !! id = None ∨ state w !! id = Some "") ∧
   AssetExists id w = (Ok false, w) ∧
   ReadAsset id w = (Throw (AssetDoesNotExist id), w)).
Proof.
  rewrite AssetExists_run. destruct (present w id) eqn:Hp.
  - left. rewrite ReadAsset_present by done.
    apply present_stored in Hp. unfold stored in *.
    destruct (state w !! id) as [t|]; [|done]. by exists t.
  - right. rewrite ReadAsset_absent by done. split; [|done].
    unfold present in Hp. destruct (state w !! id) as [[|c t]|]; auto.
    done.
Qed.

(** ** Frame *)

(** X4.  A call touches the keys it names and no other: the key [id] of
    [CreateAsset], [UpdateAsset], [DeleteAsset] and [TransferAsset], the
    six keys of the literals of [InitLedger], none for the reading
    calls.  Every other key keeps its stored text, whether the call
    succeeds or throws. *)
Theorem call_writes_only_its_keys c w id' :
  id' ∉ call_keys c →
  state (world_after c w) !! id' = state w !! id'.
Proof.
  destruct c; unfold call_keys, world_after; intros Hk.
  - rewrite InitLedger_state. by apply lookup_writes_other.
  - apply not_elem_of_cons in Hk as [Hne _].
    destruct (present w id) eqn:Hp.
    + by rewrite CreateAsset_present.
    + rewrite CreateAsset_absent by done. simpl. by rewrite lookup_insert_ne.
  - destruct (present w id) eqn:Hp.
    + by rewrite ReadAsset_present.
    + by rewrite ReadAsset_absent.
  - apply not_elem_of_cons in Hk as [Hne _].
    destruct (present w id) eqn:Hp.
    + rewrite UpdateAsset_present by done. simpl. by rewrite lookup_insert_ne.
    + by rewrite UpdateAsset_absent.
  - apply not_elem_of_cons in Hk as [Hne _].
    rewrite DeleteAsset_run. destruct (present w id); [|done].
    simpl. by rewrite lookup_delete_ne.
  - done.
  - apply not_elem_of_cons in Hk as [Hne _]. by apply TransferAsset_other.
  - by rewrite GetAllAssets_run.
Qed.

(** ** [InitLedger] again *)

(** X5.  [InitLedger] never fails and overwrites: whatever the ledger
    held, each of the six literals is stored under its [ID] as its
    encoding with [docType], every other key is kept, and running it a
    second time changes nothing. *)
Theorem InitLedger_resets_and_is_idempotent w :
  ∃ w1, InitLedger w = (Ok (), w1) ∧
    (∀ asset, asset ∈ initial_records →
       state w1 !! text_property "ID" asset = Some (encode (VObj asset))) ∧
    (∀ id, id ∉ map (text_property "ID") initial_records →
       state w1 !! id = state w !! id) ∧
    InitLedger w1 = (Ok (), w1).
Proof.
  exists (InitLedger w).2. split; [by rewrite InitLedger_run|].
  rewrite InitLedger_state. split; [|split].
  - intros asset Ha.
    apply (lookup_writes_value (text_property "ID")
             (λ asset, encode (VObj asset))); [|done].
    rewrite initial_keys. compute_done.
  - intros id Hid. by apply lookup_writes_other.
  - rewrite !InitLedger_run. cbn [snd state iterators scan_fault].
    by rewrite (writes_idempotent (text_property "ID")
                  (λ asset, encode (VObj asset))).
Qed.

(** ** What [CreateAsset] returns *)

Lemma created_asset_Permutation a c i o z :
  [("ID", i); ("Color", c); ("Size", z); ("Owner", o);
   ("AppraisedValue", a)] ≡ₚ asset_record a c i o z.
Proof.
  unfold asset_record.
  apply NoDup_Permutation.
  - apply (NoDup_fmap_1 fst). compute_done.
  - apply (NoDup_fmap_1 fst). compute_done.
  - intros x. rewrite !elem_of_cons, !elem_of_nil. tauto.
Qed.

(** X6.  [CreateAsset] returns [JSON.stringify(asset)], the record in
    the order of the source ([ID] first), which is not the text it
    stores (sorted, [AppraisedValue] first).  When both conversions are
    finite the two texts are read as the same mapping. *)
Theorem CreateAsset_returns_unsorted_text w id color size owner appraisedValue :
  present w id = false →
  ∃ r w',
    CreateAsset id color size owner appraisedValue w = (Ok r, w') ∧
    r = JSON_stringify
          (VObj (created_asset id color size owner appraisedValue)) ∧
    r ≠ stored w' id ∧
    (is_Some (num_json (Number size)) →
     is_Some (num_json (Number appraisedValue)) →
     JSON_parse r =
       Some (VObj (created_asset id color size owner appraisedValue)) ∧
     ∃ fields,
       JSON_parse (stored w' id) = Some (VObj fields) ∧
       same_mapping
         (VObj (created_asset id color size owner appraisedValue))
         (VObj fields)).
Proof.
  intros Hp. rewrite (CreateAsset_absent _ _ _ _ _ _ Hp).
  eexists _, _. split; [reflexivity|]. split; [reflexivity|].
  rewrite stored_insert. split.
  - intros E. discriminate E.
  - intros Hs Ha. split.
    + apply JSON_parse_stringify. by apply plain_created.
    + rewrite <- encode_created.
      rewrite JSON_parse_encode by (by apply plain_created).
      eexists. split; [reflexivity|].
      eapply same_obj; [apply created_asset_Permutation|].
      repeat constructor.
Qed.

(** ** [UpdateAsset] replaces *)

(** X7.  [UpdateAsset] replaces the record and merges nothing: two
    updates of a present asset leave the world that the second one alone
    leaves, and the stored text is the encoding of the five arguments of
    the last update. *)
Theorem UpdateAsset_replaces w id c1 s1 o1 a1 c2 s2 o2 a2 :
  present w id = true →
  ∃ w1 w2,
    UpdateAsset id c1 s1 o1 a1 w = (Ok (), w1) ∧
    UpdateAsset id c2 s2 o2 a2 w1 = (Ok (), w2) ∧
    UpdateAsset id c2 s2 o2 a2 w = (Ok (), w2) ∧
    stored w2 id =
      encode (VObj [("ID", VStr id); ("Color", VStr c2); ("Size", VStr s2);
                    ("Owner", VStr o2); ("AppraisedValue", VStr a2)]).
Proof.
  intros Hp. rewrite !(UpdateAsset_present w) by done.
  eexists _, _. split; [reflexivity|].
  rewrite UpdateAsset_present
    by (apply present_insert, asset_text_nonempty).
  cbn [state iterators scan_fault]. rewrite insert_insert_eq.
  split; [reflexivity|]. split; [reflexivity|].
  by rewrite stored_insert, encode_updated.
Qed.

(** ** Transfers compose *)

Lemma JSON_parse_nonempty t v : JSON_parse t = Some v → t ≠ "".
Proof. by intros E ->. Qed.

(** A transfer on a ledger of record texts, with the record it writes. *)
Lemma TransferAsset_record w id newOwner fields :
  ledger_ok w → present w id = true →
  JSON_parse (stored w id) = Some (VObj fields) →
  plain (VObj fields) ∧ sortKeysRecursive (VObj fields) = VObj fields ∧
  stored w id = JSON_stringify (VObj fields) ∧
  let w' := {| state :=
                 <[id := encode (VObj (obj_set "Owner" (VStr newOwner)
                                         fields))]> (state w);
               iterators := iterators w; scan_fault := scan_fault w |} in
  TransferAsset id newOwner w = (Ok (obj_get "Owner" fields), w') ∧
  ledger_ok w' ∧ present w' id = true ∧
  JSON_parse (stored w' id) =
    Some (sortKeysRecursive
            (VObj (obj_set "Owner" (VStr newOwner) fields))).
Proof.
  intros Hw Hp Hf.
  destruct (record_text_parse _ (ledger_ok_stored _ _ Hw Hp))
    as (fields0 & Hf0 & Hpl & Hc & Ht).
  rewrite Hf in Hf0. injection Hf0 as <-.
  assert (plain (VObj (obj_set "Owner" (VStr newOwner) fields))) as Hnew
    by (apply plain_obj_set; [done | constructor | done]).
  split; [done|]. split; [done|]. split; [done|]. intros w'.
  split; [by apply TransferAsset_object|].
  assert (JSON_parse (stored w' id) =
          Some (sortKeysRecursive
                  (VObj (obj_set "Owner" (VStr newOwner) fields)))) as Hr.
  { unfold w'. rewrite stored_insert. by apply JSON_parse_encode. }
  split; [|split; [|done]].
  - apply ledger_ok_insert; [done | by apply record_text_encode].
  - apply present_stored. by apply JSON_parse_nonempty in Hr.
Qed.

Lemma canonical_lookup fields k :
  sortKeysRecursive (VObj fields) = VObj fields →
  sortKeysRecursive <$> obj_get k fields = obj_get k fields.
Proof.
  intros Hc. rewrite sortKeysRecursive_obj in Hc. injection Hc as Hc.
  rewrite <- Hc at 2.
  by rewrite obj_get_sorted_fields, (obj_get_map_values sortKeysRecursive).
Qed.

(** The properties of the record a transfer writes. *)
Lemma transferred_lookup fields newOwner k :
  sortKeysRecursive (VObj fields) = VObj fields →
  obj_get k
    (sorted_fields
       (map (λ kv, (kv.1, sortKeysRecursive kv.2))
          (obj_set "Owner" (VStr newOwner) fields))) =
  if decide (k = "Owner") then Some (VStr newOwner) else obj_get k fields.
Proof.
  intros Hc.
  rewrite obj_get_sorted_fields, (obj_get_map_values sortKeysRecursive).
  case_decide as E.
  - subst. by rewrite obj_get_set_eq.
  - rewrite obj_get_set_ne by done. by apply canonical_lookup.
Qed.

(** X8.  Two transfers in a row, on a ledger of record texts: the
    second returns the owner the first one set, and afterwards the record
    has the last owner and every other property as before the two. *)
Theorem TransferAsset_twice w id owner1 owner2 :
  ledger_ok w → present w id = true →
  ∃ fields fields2 w1 w2,
    JSON_parse (stored w id) = Some (VObj fields) ∧
    TransferAsset id owner1 w = (Ok (obj_get "Owner" fields), w1) ∧
    TransferAsset id owner2 w1 = (Ok (Some (VStr owner1)), w2) ∧
    JSON_parse (stored w2 id) = Some (VObj fields2) ∧
    obj_get "Owner" fields2 = Some (VStr owner2) ∧
    (∀ k, k ≠ "Owner" → obj_get k fields2 = obj_get k fields).
Proof.
  intros Hw Hp.
  destruct (record_text_parse _ (ledger_ok_stored _ _ Hw Hp))
    as (fields & Hf & _).
  destruct (TransferAsset_record w id owner1 fields Hw Hp Hf)
    as (_ & Hc & _ & Ht1 & Hw1 & Hp1 & Hf1).
  rewrite sortKeysRecursive_obj in Hf1.
  destruct (TransferAsset_record _ id owner2 _ Hw1 Hp1 Hf1)
    as (_ & Hc1 & _ & Ht2 & _ & _ & Hf2).
  rewrite sortKeysRecursive_obj in Hf2.
  eexists fields, _, _, _. split; [done|]. split; [exact Ht1|].
  split; [|split; [exact Hf2|split]].
  - rewrite Ht2. by rewrite (transferred_lookup _ _ _ Hc), decide_True.
  - by rewrite (transferred_lookup _ _ _ Hc1), decide_True.
  - intros k Hk. rewrite (transferred_lookup _ _ _ Hc1), decide_False by done.
    by rewrite (transferred_lookup _ _ _ Hc), decide_False.
Qed.

Lemma sorted_fields_ext f1 f2 :
  map fst f1 ≡ₚ map fst f2 → (∀ k, obj_get k f1 = obj_get k f2) →
  sorted_fields f1 = sorted_fields f2.
Proof.
  intros Hk Hv. unfold sorted_fields.
  rewrite (sorted_keys_Permutation _ _ Hk).
  apply map_ext. intros k. by rewrite Hv.
Qed.

Lemma keys_obj_set_present k v fields :
  is_Some (obj_get k fields) → map fst (obj_set k v fields) = map fst fields.
Proof.
  intros [x E]. unfold obj_set. rewrite E. apply keys_obj_replace.
Qed.

Lemma present_lookup w id :
  present w id = true → state w !! id = Some (stored w id).
Proof.
  intros Hp%present_stored. unfold stored in *.
  by destruct (state w !! id).
Qed.

(** X9.  Transferring an asset away and back to its owner restores the
    stored text, byte for byte, and with it the whole ledger state (on a
    ledger of record texts, for an owner that is a string). *)
Theorem TransferAsset_back_restores w id owner other fields :
  ledger_ok w → present w id = true →
  JSON_parse (stored w id) = Some (VObj fields) →
  obj_get "Owner" fields = Some (VStr owner) →
  ∃ w1 w2,
    TransferAsset id other w = (Ok (Some (VStr owner)), w1) ∧
    TransferAsset id owner w1 = (Ok (Some (VStr other)), w2) ∧
    stored w2 id = stored w id ∧
    state w2 = state w.
Proof.
  intros Hw Hp Hf Ho.
  destruct (TransferAsset_record w id other fields Hw Hp Hf)
    as (_ & Hc & Ht & Ht1 & Hw1 & Hp1 & Hf1).
  rewrite sortKeysRecursive_obj in Hf1.
  destruct (TransferAsset_record _ id owner _ Hw1 Hp1 Hf1)
    as (_ & Hc1 & _ & Ht2 & _ & _ & _).
  rewrite Ho in Ht1.
  rewrite (transferred_lookup _ _ _ Hc), decide_True in Ht2 by done.
  eexists _, _. split; [exact Ht1|]. split; [exact Ht2|].
  set (norm := λ kv : string * value, (kv.1, sortKeysRecursive kv.2)) in *.
  set (fields1 := sorted_fields
                    (map norm (obj_set "Owner" (VStr other) fields))) in *.
  assert (encode (VObj (obj_set "Owner" (VStr owner) fields1)) =
          stored w id) as Hback.
  { rewrite encode_sorted, sortKeysRecursive_obj, Ht. f_equal. f_equal.
    pose proof Hc as Hc'. rewrite sortKeysRecursive_obj in Hc'.
    injection Hc' as Hc'.
    transitivity (sorted_fields (map norm fields)); [|exact Hc'].
    fold norm. apply sorted_fields_ext.
    - unfold norm. rewrite !keys_map_values.
      rewrite keys_obj_set_present
        by (unfold fields1, norm; by rewrite (transferred_lookup _ _ _ Hc)).
      unfold fields1. rewrite keys_sorted_fields, merge_sort_Permutation.
      unfold norm. rewrite keys_map_values.
      by rewrite keys_obj_set_present by (by rewrite Ho).
    - intros k. unfold norm.
      rewrite !(obj_get_map_values sortKeysRecursive).
      destruct (decide (k = "Owner")) as [->|Hk].
      + by rewrite obj_get_set_eq, Ho.
      + rewrite obj_get_set_ne by done. unfold fields1, norm.
        by rewrite (transferred_lookup _ _ _ Hc), decide_False. }
  split.
  - by rewrite stored_insert.
  - cbn [state]. rewrite insert_insert_eq, Hback.
    by apply insert_id, present_lookup.
Qed.

(** X10.  A stored text that is no record makes [TransferAsset] throw
    before it writes: a [SyntaxError] of [JSON.parse] when the text is no
    JSON, a [TypeError] when it is the JSON of [null], a boolean, a number
    or a string (the file is in strict mode).  The world is unchanged. *)
Theorem TransferAsset_malformed w id newOwner :
  present w id = true →
  (JSON_parse (stored w id) = None →
   TransferAsset id newOwner w = (Throw SyntaxError, w)) ∧
  (∀ v, JSON_parse (stored w id) = Some v → primitive v = true →
        TransferAsset id newOwner w = (Throw TypeError, w)).
Proof.
  intros Hp. unfold TransferAsset, bind.
  rewrite ReadAsset_present by done. split.
  - by intros ->.
  - intros v -> Hv. by destruct v.
Qed.

(** ** The ledgers the contract reaches *)

(** X11.  In every ledger the contract can reach from the empty one,
    each stored text is non-empty and [JSON.parse] reads it as an object.
    So [TransferAsset] of a present asset always succeeds there, and
    [GetAllAssets], when the host does not fail the scan, lists objects
    only: the fall-back to the raw text is never taken. *)
Theorem reachable_ledger_decodes w :
  reachable w →
  (∀ id t, state w !! id = Some t →
     t ≠ "" ∧ ∃ fields, JSON_parse t = Some (VObj fields)) ∧
  (∀ id newOwner, present w id = true →
     ∃ old w', TransferAsset id newOwner w = (Ok old, w')) ∧
  (scan_fault w = None →
   ∃ records w',
     GetAllAssets w = (Ok (JSON_stringify (VArr records)), w') ∧
     Forall (λ r, ∃ fields, r = VObj fields) records).
Proof.
  intros Hr. pose proof (reachable_ledger_ok w Hr) as Hw.
  split; [|split].
  - intros id t Ht. pose proof (Hw id t Ht) as Hrt.
    split; [by apply record_text_nonempty|].
    destruct (record_text_parse _ Hrt) as (fields & Hf & _). by exists fields.
  - intros id newOwner Hp.
    destruct (record_text_parse _ (ledger_ok_stored _ _ Hw Hp))
      as (fields & Hf & _).
    eexists _, _. by apply TransferAsset_object.
  - intros Hf. rewrite GetAllAssets_run, Hf. eexists _, _.
    split; [reflexivity|]. apply Forall_forall. intros r Hin.
    apply list_elem_of_fmap in Hin as ([k t] & -> & Hin).
    rewrite sorted_entries_Permutation in Hin.
    apply elem_of_map_to_list in Hin.
    destruct (record_text_parse _ (Hw k t Hin)) as (fields & Hp & _).
    exists fields. unfold decode_entry. simpl. by rewrite Hp.
Qed.

(** ** The listing *)

(** X12.  [GetAllAssets] reads only and can be repeated: when the host
    does not fail the scans, a second call returns the same text as the
    first, the ledger state is untouched, and each call has left one more
    iterator, open. *)
Theorem GetAllAssets_repeatable w :
  scan_fault w = None →
  ∃ r w1 w2 it1 it2,
    GetAllAssets w = (Ok r, w1) ∧ GetAllAssets w1 = (Ok r, w2) ∧
    state w2 = state w ∧
    iterators w2 = iterators w ++ [it1; it2] ∧
    closed it1 = false ∧ closed it2 = false.
Proof.
  intros Hf. rewrite GetAllAssets_run, Hf.
  eexists _, _, _, _, _. split; [reflexivity|].
  rewrite GetAllAssets_run. split; [reflexivity|]. split; [reflexivity|].
  unfold after_scan. cbn [state iterators scan_fault].
  rewrite <- app_assoc. split; [reflexivity|].
  by rewrite Hf.
Qed.

(** X13.  The listing follows the writes: after [CreateAsset] of a key
    the store did not hold, [GetAllAssets] lists one record more, the
    new one among them; after [DeleteAsset] of a present key, one record
    less. *)
Theorem listing_follows_create_and_delete
  w id color size owner appraisedValue :
  scan_fault w = None →
  (state w !! id = None →
   ∃ r w1 records w2,
     CreateAsset id color size owner appraisedValue w = (Ok r, w1) ∧
     GetAllAssets w1 = (Ok (JSON_stringify (VArr records)), w2) ∧
     length records = S (base.size (state w)) ∧
     decode_entry (id, stored w1 id) ∈ records) ∧
  (present w id = true →
   ∃ w1 records w2,
     DeleteAsset id w = (Ok (), w1) ∧
     GetAllAssets w1 = (Ok (JSON_stringify (VArr records)), w2) ∧
     S (length records) = base.size (state w)).
Proof.
  intros Hf. split.
  - intros Hn.
    assert (present w id = false) as Hp by (unfold present; by rewrite Hn).
    rewrite (CreateAsset_absent _ _ _ _ _ _ Hp).
    eexists _, _, _, _. split; [reflexivity|].
    rewrite GetAllAssets_run. cbn [state scan_fault]. rewrite Hf.
    split; [reflexivity|]. split.
    + rewrite length_map, length_sorted_entries.
      by apply map_size_insert_None.
    + apply list_elem_of_fmap_2. rewrite sorted_entries_Permutation.
      apply elem_of_map_to_list. rewrite stored_insert.
      apply lookup_insert_eq.
  - intros Hp. rewrite DeleteAsset_run, Hp.
    eexists _, _, _. split; [reflexivity|].
    rewrite GetAllAssets_run. cbn [state scan_fault]. rewrite Hf.
    split; [reflexivity|].
    rewrite length_map, length_sorted_entries.
    rewrite map_size_delete_Some
      by (by rewrite (present_lookup _ _ Hp)).
    pose proof (present_lookup _ _ Hp) as Hl.
    assert (base.size (state w) ≠ 0) as Hs
      by (intros He%map_size_empty_inv; rewrite He in Hl;
          by rewrite lookup_empty in Hl).
    lia.
Qed.

(** X14.  The listing agrees with the reads, on a ledger of record
    texts and when the host does not fail the scan: the text
    [GetAllAssets] returns is read back by [JSON.parse] as an array; the
    object [JSON.parse] makes of what [ReadAsset] returns for a present
    key is in that array, and every element of the array is the object of
    the text [ReadAsset] returns for some key. *)
Theorem listing_agrees_with_reads w :
  ledger_ok w → scan_fault w = None →
  ∃ r records w',
    GetAllAssets w = (Ok r, w') ∧
    JSON_parse r = Some (VArr records) ∧
    (∀ id, present w id = true →
       ∃ t v, ReadAsset id w = (Ok t, w) ∧ JSON_parse t = Some v ∧
              v ∈ records) ∧
    (∀ v, v ∈ records →
       ∃ id t, ReadAsset id w = (Ok t, w) ∧ JSON_parse t = Some v).
Proof.
  intros Hw Hf. rewrite GetAllAssets_run, Hf.
  eexists _, (map decode_entry (sorted_entries (state w))), _.
  split; [reflexivity|]. split; [|split].
  - apply JSON_parse_stringify. constructor. apply Forall_forall.
    intros v Hin. apply list_elem_of_fmap in Hin as ([k t] & -> & Hin).
    rewrite sorted_entries_Permutation in Hin.
    apply elem_of_map_to_list in Hin.
    destruct (record_text_parse _ (Hw k t Hin)) as (fields & Hp & Hpl & _).
    unfold decode_entry. simpl. by rewrite Hp.
  - intros id Hp. exists (stored w id).
    destruct (record_text_parse _ (ledger_ok_stored _ _ Hw Hp))
      as (fields & Hfp & _).
    exists (VObj fields). split; [by apply ReadAsset_present|].
    split; [done|]. apply list_elem_of_fmap. exists (id, stored w id).
    split; [unfold decode_entry; simpl; by rewrite Hfp|].
    rewrite sorted_entries_Permutation. apply elem_of_map_to_list.
    by apply present_lookup.
  - intros v Hin. apply list_elem_of_fmap in Hin as ([k t] & -> & Hin).
    rewrite sorted_entries_Permutation in Hin.
    apply elem_of_map_to_list in Hin.
    pose proof (Hw k t Hin) as Ht.
    destruct (record_text_parse _ Ht) as (fields & Hp & _).
    assert (stored w k = t) as Hs by (unfold stored; by rewrite Hin).
    exists k, t. rewrite <- Hs at 1.
    split; [|unfold decode_entry; simpl; by rewrite Hp].
    apply ReadAsset_present, present_stored. rewrite Hs.
    by apply record_text_nonempty.
Qed.

(** ** Creating and deleting *)

(** X15.  [CreateAsset] and [DeleteAsset] undo each other on a free key:
    creating an asset under a key the store does not hold and deleting it
    again gives back the world before the two calls.  In the other order
    the key is free again: after [DeleteAsset] of a present asset,
    [CreateAsset] of the same key succeeds and stores the new record. *)
Theorem CreateAsset_DeleteAsset_compose
  w id color size owner appraisedValue :
  (state w !! id = None →
   ∃ r w1,
     CreateAsset id color size owner appraisedValue w = (Ok r, w1) ∧
     DeleteAsset id w1 = (Ok (), w)) ∧
  (present w id = true →
   ∃ r w1 w2,
     DeleteAsset id w = (Ok (), w1) ∧
     CreateAsset id color size owner appraisedValue w1 = (Ok r, w2) ∧
     stored w2 id =
       encode (VObj (created_asset id color size owner appraisedValue)) ∧
     ∀ id', id' ≠ id → state w2 !! id' = state w !! id').
Proof.
  split.
  - intros Hn.
    assert (present w id = false) as Hp by (unfold present; by rewrite Hn).
    rewrite (CreateAsset_absent _ _ _ _ _ _ Hp).
    eexists _, _. split; [reflexivity|].
    rewrite DeleteAsset_run, present_insert by apply asset_text_nonempty.
    cbn [state iterators scan_fault].
    rewrite delete_insert_id by done. by destruct w.
  - intros Hp. rewrite DeleteAsset_run, Hp.
    set (w1 := {| state := delete id (state w); iterators := iterators w;
                  scan_fault := scan_fault w |}).
    assert (present w1 id = false) as Hp1
      by (unfold present, w1; simpl; by rewrite lookup_delete_eq).
    eexists _, w1, _. split; [reflexivity|].
    rewrite (CreateAsset_absent _ _ _ _ _ _ Hp1).
    split; [reflexivity|]. split; [by rewrite stored_insert|].
    intros id' Hne. simpl.
    by rewrite lookup_insert_ne, lookup_delete_ne.
Qed.

(** ** The records of the reachable ledgers *)

Lemma asset_fields_sorted id fields :
  asset_fields id fields →
  asset_fields id
    (sorted_fields (map (λ kv, (kv.1, sortKeysRecursive kv.2)) fields)).
Proof.
  intros (Hi & [o Ho] & Hc & Hs & Ha). unfold asset_fields.
  rewrite !obj_get_sorted_fields, !(obj_get_map_values sortKeysRecursive).
  rewrite Hi, Ho. split; [done|]. split; [by exists o|].
  by rewrite !fmap_is_Some.
Qed.

Lemma keyed_text_encode id fields :
  plain (VObj fields) → asset_fields id fields →
  keyed_text id (encode (VObj fields)).
Proof.
  intros Hp Ha. rewrite encode_sorted.
  pose proof (plain_sortKeysRecursive _ Hp) as Hp'.
  pose proof (sortKeysRecursive_idemp (VObj fields)) as Hi.
  rewrite sortKeysRecursive_obj in *. eexists.
  split; [exact Hp'|]. split; [exact Hi|]. split; [done|].
  by apply asset_fields_sorted.
Qed.

Lemma keyed_text_created id color owner (size appraisedValue : number) :
  keyed_text id (asset_text (number_text appraisedValue) (quote color)
                   (quote id) (quote owner) (number_text size)).
Proof.
  exists (asset_record (number_or_null appraisedValue) (VStr color)
            (VStr id) (VStr owner) (number_or_null size)).
  split; [|split; [|split]].
  - apply plain_asset_record; try constructor; apply plain_number_or_null.
  - rewrite sortKeysRecursive_asset_record.
    by rewrite !sortKeysRecursive_number_or_null.
  - rewrite JSON_stringify_asset_record.
    by rewrite !JSON_stringify_number_or_null.
  - split; [reflexivity|]. split; [by eexists|]. split; [by eexists|].
    split; by eexists.
Qed.

Lemma keyed_text_updated id color owner size appraisedValue :
  keyed_text id (asset_text (quote appraisedValue) (quote color) (quote id)
                   (quote owner) (quote size)).
Proof.
  rewrite <- encode_updated. apply keyed_text_encode; [apply plain_updated|].
  split; [reflexivity|]. split; [by eexists|]. split; [by eexists|].
  split; by eexists.
Qed.

Lemma keyed_text_parse id t :
  keyed_text id t →
  ∃ fields, JSON_parse t = Some (VObj fields) ∧ plain (VObj fields) ∧
            asset_fields id fields.
Proof.
  intros (fields & Hp & _ & -> & Ha). exists fields.
  by rewrite JSON_parse_stringify.
Qed.

Lemma ledger_keyed_insert w id t its f :
  ledger_keyed w → keyed_text id t →
  ledger_keyed {| state := <[id := t]> (state w); iterators := its;
                  scan_fault := f |}.
Proof.
  intros Hw Ht id' t'. simpl. rewrite lookup_insert.
  case_decide as E; [|apply Hw]. subst id'. by intros [= <-].
Qed.

Lemma ledger_keyed_foldl records st its f :
  Forall (λ asset, plain (VObj asset) ∧
                   asset_fields (text_property "ID" asset) asset) records →
  ledger_keyed {| state := st; iterators := its; scan_fault := f |} →
  ledger_keyed
    {| state :=
         foldl (λ st asset,
                  <[text_property "ID" asset := encode (VObj asset)]> st)
           st records;
       iterators := its; scan_fault := f |}.
Proof.
  intros Hr. revert st.
  induction Hr as [|x l [Hx Hx'] Hl IH]; intros st Hw; [done|].
  simpl. apply IH.
  apply (ledger_keyed_insert {| state := st; iterators := its;
                                scan_fault := f |}); [done|].
  by apply keyed_text_encode.
Qed.

Lemma initial_records_keyed :
  Forall (λ asset, plain (VObj asset) ∧
                   asset_fields (text_property "ID" asset) asset)
    initial_records.
Proof.
  apply Forall_forall. intros asset Hin. split.
  - by apply (proj1 (Forall_forall _ _) plain_initial_records).
  - unfold initial_records, initial_assets in Hin. cbn [map] in Hin.
    repeat (apply elem_of_cons in Hin as [->|Hin];
            [split; [reflexivity|]; split; [by eexists|];
             split; [by eexists|]; split; by eexists|]).
    by apply elem_of_nil in Hin.
Qed.

Lemma ledger_keyed_stored w id :
  ledger_keyed w → present w id = true → keyed_text id (stored w id).
Proof.
  intros Hw Hp. apply (Hw id). by apply present_lookup.
Qed.

Lemma asset_fields_transferred id newOwner fields :
  asset_fields id fields →
  asset_fields id (obj_set "Owner" (VStr newOwner) fields).
Proof.
  intros (Hi & _ & Hc & Hs & Ha). unfold asset_fields.
  rewrite obj_get_set_eq, !obj_get_set_ne by done.
  split; [done|]. split; [by eexists|]. done.
Qed.

Lemma ledger_keyed_world_after c w :
  ledger_keyed w → ledger_keyed (world_after c w).
Proof.
  intros Hw. destruct c; unfold world_after.
  - rewrite InitLedger_run. destruct w as [st its f].
    apply (ledger_keyed_foldl initial_records st its f);
      [apply initial_records_keyed | done].
  - destruct (present w id) eqn:Hp.
    + by rewrite CreateAsset_present.
    + rewrite CreateAsset_absent by done. simpl.
      apply ledger_keyed_insert; [done | apply keyed_text_created].
  - destruct (present w id) eqn:Hp.
    + by rewrite ReadAsset_present.
    + by rewrite ReadAsset_absent.
  - destruct (present w id) eqn:Hp.
    + rewrite UpdateAsset_present by done. simpl.
      apply ledger_keyed_insert; [done | apply keyed_text_updated].
    + by rewrite UpdateAsset_absent.
  - rewrite DeleteAsset_run. destruct (present w id); [|done].
    intros id' t. simpl. rewrite lookup_delete.
    case_decide; [done | apply Hw].
  - done.
  - destruct (present w id) eqn:Hp.
    + destruct (keyed_text_parse _ _ (ledger_keyed_stored _ _ Hw Hp))
        as (fields & Hf & Hpl & Ha).
      rewrite (TransferAsset_object _ _ _ _ Hp Hf). simpl.
      apply ledger_keyed_insert; [done|]. apply keyed_text_encode.
      * apply plain_obj_set; [done | constructor | done].
      * by apply asset_fields_transferred.
    + by rewrite TransferAsset_absent.
  - rewrite GetAllAssets_run. intros id t. apply Hw.
Qed.

Lemma reachable_ledger_keyed w : reachable w → ledger_keyed w.
Proof.
  induction 1 as [|c w Hr IH|f w Hr IH].
  - intros id t. simpl. by rewrite lookup_empty.
  - by apply ledger_keyed_world_after.
  - intros id t. apply IH.
Qed.

(** X16.  In every ledger the contract can reach from the empty one, the
    record stored under a key names that key as its [ID], its [Owner] is
    a string, and it has [Color], [Size] and [AppraisedValue].  So
    [TransferAsset] of a present asset returns a string there, never
    [undefined]. *)
Theorem reachable_records_keyed w :
  reachable w →
  (∀ id t, state w !! id = Some t →
     ∃ fields, JSON_parse t = Some (VObj fields) ∧ asset_fields id fields) ∧
  (∀ id newOwner, present w id = true →
     ∃ owner w',
       TransferAsset id newOwner w = (Ok (Some (VStr owner)), w')).
Proof.
  intros Hr. pose proof (reachable_ledger_keyed w Hr) as Hw. split.
  - intros id t Ht.
    destruct (keyed_text_parse _ _ (Hw id t Ht)) as (fields & Hf & _ & Ha).
    by exists fields.
  - intros id newOwner Hp.
    destruct (keyed_text_parse _ _ (ledger_keyed_stored _ _ Hw Hp))
      as (fields & Hf & _ & _ & [owner Ho] & _).
    rewrite (TransferAsset_object _ _ _ _ Hp Hf), Ho. by eexists _, _.
Qed.

(** ** Presence under updates and transfers *)

Lemma encode_nonempty v : primitive v = false → encode v ≠ "".
Proof.
  rewrite encode_sorted. by destruct v.
Qed.

Lemma present_insert_other w id id' t its f :
  id' ≠ id →
  present {| state := <[id := t]> (state w); iterators := its;
             scan_fault := f |} id' = present w id'.
Proof.
  intros Hne. unfold present. simpl. by rewrite lookup_insert_ne.
Qed.

(** X17.  [UpdateAsset] and [TransferAsset] neither create nor remove an
    asset: whatever the store holds and whether they succeed or throw,
    every key is present after the call exactly when it was before. *)
Theorem UpdateAsset_TransferAsset_keep_presence w id id' :
  (∀ color size owner appraisedValue,
     present (UpdateAsset id color size owner appraisedValue w).2 id' =
     present w id') ∧
  (∀ newOwner,
     present (TransferAsset id newOwner w).2 id' = present w id').
Proof.
  split.
  - intros color size owner appraisedValue.
    destruct (present w id) eqn:Hp.
    + rewrite UpdateAsset_present by done. simpl.
      destruct (decide (id' = id)) as [->|Hne].
      * rewrite Hp. apply present_insert, asset_text_nonempty.
      * by apply present_insert_other.
    + by rewrite UpdateAsset_absent.
  - intros newOwner. destruct (present w id) eqn:Hp.
    + unfold TransferAsset, bind. rewrite ReadAsset_present by done.
      destruct (JSON_parse (stored w id)) as [[]|]; try done; simpl;
        (destruct (decide (id' = id)) as [->|Hne];
         [rewrite Hp; by apply present_insert, encode_nonempty
         |by apply present_insert_other]).
    + by rewrite TransferAsset_absent.
Qed.

End MoreProperties.

#[export] Existing Instance ZNumbers.

(** * The specification's examples, run on the integer instance *)

Example encode_brad :
  encode brad_owner_first = json_text "{'ID':'asset2','Owner':'Brad'}".
Proof. reflexivity. Qed.

Example create_then_read :
  (bind (CreateAsset "a1" "blue" "5" "Tomoko" "300") (λ _, ReadAsset "a1")
     empty_world).1 =
  Ok (json_text
        "{'AppraisedValue':300,'Color':'blue','ID':'a1','Owner':'Tomoko','Size':5}").
Proof. vm_compute. reflexivity. Qed.

Example create_NaN_then_read :
  (bind (CreateAsset "a1" "blue" "abc" "Tomoko" "300") (λ _, ReadAsset "a1")
     empty_world).1 =
  Ok (json_text
        "{'AppraisedValue':300,'Color':'blue','ID':'a1','Owner':'Tomoko','Size':null}").
Proof. vm_compute. reflexivity. Qed.

Example transfer_returns_prior_owner :
  (bind (TransferAsset "asset2" "Carol") (λ old,
     bind (ReadAsset "asset2") (λ text, ret (old, text))) world_init).1 =
  Ok (Some (VStr "Brad"),
      json_text
        "{'AppraisedValue':400,'Color':'red','ID':'asset2','Owner':'Carol','Size':5,'docType':'asset'}").
Proof. vm_compute. reflexivity. Qed.

Example transfer_sorts_unsorted_record :
  (bind (TransferAsset "asset2" "Carol") (λ old, bind (ReadAsset "asset2")
     (λ text, ret (old, text))) world_unsorted).1 =
  Ok (Some (VStr "Brad"), json_text "{'ID':'asset2','Owner':'Carol'}").
Proof. vm_compute. reflexivity. Qed.

Example update_then_read :
  (bind (UpdateAsset "asset1" "blue" "5" "Tomoko" "300")
     (λ _, ReadAsset "asset1") world_init).1 =
  Ok (json_text
        "{'AppraisedValue':'300','Color':'blue','ID':'asset1','Owner':'Tomoko','Size':'5'}").
Proof. vm_compute. reflexivity. Qed.

Example delete_then_exists :
  (bind (DeleteAsset "asset1") (λ _,
     bind (AssetExists "asset1") (λ e,
       bind (ReadAsset "asset1") (λ _, ret e))) world_init).1 =
  Throw (AssetDoesNotExist "asset1") ∧
  (bind (DeleteAsset "asset1") (λ _, AssetExists "asset1") world_init).1 =
  Ok false.
Proof. split; vm_compute; reflexivity. Qed.

Example listing_with_raw_text :
  (GetAllAssets world_raw).1 =
  Ok (json_text "[{'ID':'k1'},'not json']").
Proof. vm_compute. reflexivity. Qed.

Example listing_with_host_failure :
  (GetAllAssets {| state := state world_init; iterators := [];
                   scan_fault := Some 2 |}).1 = Throw StoreFailure.
Proof. vm_compute. reflexivity. Qed.

(** ** Witnesses and counterexamples *)

Lemma encode_deterministic_witness :
  well_formed brad_owner_first ∧
  same_mapping brad_owner_first brad_id_first ∧
  encode brad_owner_first = encode brad_id_first.
Proof.
  assert (well_formed brad_owner_first) as Hwf.
  { constructor; [compute_done | repeat constructor]. }
  assert (same_mapping brad_owner_first brad_id_first) as Hs.
  { apply (same_obj _ _ [("ID", VStr "asset2"); ("Owner", VStr "Brad")]).
    - apply perm_swap.
    - repeat constructor. }
  split; [exact Hwf|]. split; [exact Hs|].
  exact (encode_deterministic _ _ Hwf Hs).
Defined.

Lemma create_read_round_trip_witness :
  present empty_world "a1" = false ∧
  is_Some (num_json (Number "5")) ∧
  is_Some (num_json (Number "300")) ∧
  create_read_round_trip empty_world "a1" "blue" "5" "Tomoko" "300".
Proof.
  assert (is_Some (num_json (Number "5"))) as H5 by (vm_compute; eauto).
  assert (is_Some (num_json (Number "300"))) as H300 by (vm_compute; eauto).
  split; [reflexivity|]. split; [exact H5|]. split; [exact H300|].
  exact (create_read_round_trip_finite empty_world "a1" "blue" "5" "Tomoko"
           "300" eq_refl H5 H300).
Defined.

Example read_back_NaN :
  JSON_parse (stored world_nan "a1") = Some (VObj nan_fields).
Proof. vm_compute. reflexivity. Qed.

(** C2 as stated fails when a numeric argument is no numeral:
    [Number("abc")] is NaN, the record is stored with [Size] equal to
    [null], and no number is read back. *)
Lemma create_read_round_trip_fails_on_NaN :
  ¬ create_read_round_trip empty_world "a1" "blue" "abc" "Tomoko" "300".
Proof.
  intros (r & w1 & text & w2 & fields & Hc & Hr & Ht & Hw & Hp & _ & _ &
          Hsize & _).
  assert (w1 = world_nan) as -> by (unfold world_nan; by rewrite Hc).
  subst text. rewrite read_back_NaN in Hp. injection Hp as <-.
  discriminate Hsize.
Qed.

Lemma CreateAsset_duplicate_witness :
  present world_a1 "a1" = true ∧
  ∃ w', CreateAsset "a1" "red" "7" "Brad" "1" world_a1 =
          (Throw (AssetAlreadyExists "a1"), w') ∧
        w' = world_a1 ∧ stored w' "a1" = stored world_a1 "a1".
Proof.
  split; [reflexivity|].
  exact (CreateAsset_duplicate_rejected world_a1 "a1" "red" "7" "Brad" "1"
           eq_refl).
Defined.

Lemma UpdateAsset_absent_witness :
  present world_init "nope" = false ∧
  ∃ w', UpdateAsset "nope" "red" "7" "Brad" "1" world_init =
          (Throw (AssetDoesNotExist "nope"), w') ∧
        w' = world_init ∧ present w' "nope" = false ∧
        (state world_init !! "nope" = None → state w' !! "nope" = None).
Proof.
  split; [reflexivity|].
  exact (UpdateAsset_absent_fails world_init "nope" "red" "7" "Brad" "1"
           eq_refl).
Defined.

Lemma world_init_ledger_ok : ledger_ok world_init.
Proof.
  apply reachable_ledger_ok.
  apply (reach_call CallInitLedger). apply reach_empty.
Qed.



Lemma GetAllAssets_degrades_witness :
  scan_fault world_raw = None ∧
  ∃ results w',
    GetAllAssets world_raw = (Ok (JSON_stringify (VArr results)), w') ∧
    results = map decode_entry (sorted_entries (state world_raw)) ∧
    length results = size (state world_raw) ∧
    sorted_entries (state world_raw) ≡ₚ map_to_list (state world_raw) ∧
    StronglySorted key_le (sorted_entries (state world_raw)) ∧
    Forall2 (λ kv record,
               match JSON_parse kv.2 with
               | Some parsed => record = parsed
               | None => record = VStr kv.2
               end)
      (sorted_entries (state world_raw)) results.
Proof.
  split; [reflexivity|].
  exact (GetAllAssets_degrades_per_entry world_raw eq_refl).
Defined.

(** C9 as stated fails: on the empty ledger [GetAllAssets] returns
    normally and the iterator it opened is still open. *)
Lemma scan_not_released : ¬ scan_released empty_world.
Proof.
  intros (it & Hit & Hc). vm_compute in Hit. injection Hit as <-.
  discriminate Hc.
Qed.


(** * The further properties, at the examples' ledgers *)

Lemma DeleteAsset_removes_witness :
  present world_a1 "a1" = true ∧
  ∃ w', DeleteAsset "a1" world_a1 = (Ok (), w') ∧
    state w' !! "a1" = None ∧
    AssetExists "a1" w' = (Ok false, w') ∧
    ReadAsset "a1" w' = (Throw (AssetDoesNotExist "a1"), w') ∧
    (∀ id', id' ≠ "a1" → state w' !! id' = state world_a1 !! id').
Proof.
  split; [reflexivity|].
  exact (proj1 (DeleteAsset_removes world_a1 "a1") eq_refl).
Defined.

Lemma call_writes_only_its_keys_witness :
  ("asset1" ∉ call_keys (CallCreateAsset "a1" "blue" "5" "Tomoko" "300")) ∧
  state (world_after (CallCreateAsset "a1" "blue" "5" "Tomoko" "300")
           world_init) !! "asset1" = state world_init !! "asset1".
Proof.
  assert ("asset1" ∉
          call_keys (CallCreateAsset "a1" "blue" "5" "Tomoko" "300")) as Hk.
  { apply not_elem_of_cons. split; [discriminate|apply not_elem_of_nil]. }
  split; [exact Hk|].
  exact (call_writes_only_its_keys
           (CallCreateAsset "a1" "blue" "5" "Tomoko" "300") world_init
           "asset1" Hk).
Defined.

Lemma CreateAsset_returns_unsorted_text_witness :
  present empty_world "a1" = false ∧
  ∃ r w',
    CreateAsset "a1" "blue" "5" "Tomoko" "300" empty_world = (Ok r, w') ∧
    r = JSON_stringify
          (VObj (created_asset "a1" "blue" "5" "Tomoko" "300")) ∧
    r ≠ stored w' "a1" ∧
    (is_Some (num_json (Number "5")) →
     is_Some (num_json (Number "300")) →
     JSON_parse r =
       Some (VObj (created_asset "a1" "blue" "5" "Tomoko" "300")) ∧
     ∃ fields,
       JSON_parse (stored w' "a1") = Some (VObj fields) ∧
       same_mapping
         (VObj (created_asset "a1" "blue" "5" "Tomoko" "300"))
         (VObj fields)).
Proof.
  split; [reflexivity|].
  exact (CreateAsset_returns_unsorted_text empty_world "a1" "blue" "5"
           "Tomoko" "300" eq_refl).
Defined.

Lemma UpdateAsset_replaces_witness :
  present world_init "asset1" = true ∧
  ∃ w1 w2,
    UpdateAsset "asset1" "red" "7" "Brad" "1" world_init = (Ok (), w1) ∧
    UpdateAsset "asset1" "green" "9" "Carol" "2" w1 = (Ok (), w2) ∧
    UpdateAsset "asset1" "green" "9" "Carol" "2" world_init = (Ok (), w2) ∧
    stored w2 "asset1" =
      encode (VObj [("ID", VStr "asset1"); ("Color", VStr "green");
                    ("Size", VStr "9"); ("Owner", VStr "Carol");
                    ("AppraisedValue", VStr "2")]).
Proof.
  split; [reflexivity|].
  exact (UpdateAsset_replaces world_init "asset1" "red" "7" "Brad" "1"
           "green" "9" "Carol" "2" eq_refl).
Defined.

Lemma TransferAsset_twice_witness :
  ledger_ok world_init ∧ present world_init "asset1" = true ∧
  ∃ fields fields2 w1 w2,
    JSON_parse (stored world_init "asset1") = Some (VObj fields) ∧
    TransferAsset "asset1" "Carol" world_init =
      (Ok (obj_get "Owner" fields), w1) ∧
    TransferAsset "asset1" "Dave" w1 = (Ok (Some (VStr "Carol")), w2) ∧
    JSON_parse (stored w2 "asset1") = Some (VObj fields2) ∧
    obj_get "Owner" fields2 = Some (VStr "Dave") ∧
    (∀ k, k ≠ "Owner" → obj_get k fields2 = obj_get k fields).
Proof.
  split; [exact world_init_ledger_ok|]. split; [reflexivity|].
  exact (TransferAsset_twice world_init "asset1" "Carol" "Dave"
           world_init_ledger_ok eq_refl).
Defined.

Lemma TransferAsset_back_restores_witness :
  ledger_ok world_init ∧ present world_init "asset1" = true ∧
  JSON_parse (stored world_init "asset1") = Some (VObj asset1_fields) ∧
  obj_get "Owner" asset1_fields = Some (VStr "Tomoko") ∧
  ∃ w1 w2,
    TransferAsset "asset1" "Carol" world_init =
      (Ok (Some (VStr "Tomoko")), w1) ∧
    TransferAsset "asset1" "Tomoko" w1 = (Ok (Some (VStr "Carol")), w2) ∧
    stored w2 "asset1" = stored world_init "asset1" ∧
    state w2 = state world_init.
Proof.
  assert (JSON_parse (stored world_init "asset1") = Some (VObj asset1_fields))
    as Hf by (vm_compute; reflexivity).
  split; [exact world_init_ledger_ok|]. split; [reflexivity|].
  split; [exact Hf|]. split; [reflexivity|].
  exact (TransferAsset_back_restores world_init "asset1" "Tomoko" "Carol"
           asset1_fields world_init_ledger_ok eq_refl Hf eq_refl).
Defined.

Lemma TransferAsset_malformed_witness :
  present world_raw "k2" = true ∧
  JSON_parse (stored world_raw "k2") = None ∧
  TransferAsset "k2" "Carol" world_raw = (Throw SyntaxError, world_raw).
Proof.
  split; [reflexivity|]. split; [reflexivity|].
  exact (proj1 (TransferAsset_malformed world_raw "k2" "Carol" eq_refl)
           eq_refl).
Defined.

Lemma reachable_ledger_decodes_witness :
  reachable world_init ∧
  (∀ id t, state world_init !! id = Some t →
     t ≠ "" ∧ ∃ fields, JSON_parse t = Some (VObj fields)) ∧
  (∀ id newOwner, present world_init id = true →
     ∃ old w', TransferAsset id newOwner world_init = (Ok old, w')) ∧
  (scan_fault world_init = None →
   ∃ records w',
     GetAllAssets world_init = (Ok (JSON_stringify (VArr records)), w') ∧
     Forall (λ r, ∃ fields, r = VObj fields) records).
Proof.
  assert (reachable world_init) as Hr
    by exact (reach_call CallInitLedger empty_world reach_empty).
  split; [exact Hr|].
  exact (reachable_ledger_decodes world_init Hr).
Defined.

Lemma GetAllAssets_repeatable_witness :
  scan_fault world_raw = None ∧
  ∃ r w1 w2 it1 it2,
    GetAllAssets world_raw = (Ok r, w1) ∧ GetAllAssets w1 = (Ok r, w2) ∧
    state w2 = state world_raw ∧
    iterators w2 = iterators world_raw ++ [it1; it2] ∧
    closed it1 = false ∧ closed it2 = false.
Proof.
  split; [reflexivity|].
  exact (GetAllAssets_repeatable world_raw eq_refl).
Defined.

Lemma listing_follows_create_and_delete_witness :
  scan_fault world_init = None ∧
  state world_init !! "a1" = None ∧
  present world_init "asset1" = true ∧
  (∃ r w1 records w2,
     CreateAsset "a1" "blue" "5" "Tomoko" "300" world_init = (Ok r, w1) ∧
     GetAllAssets w1 = (Ok (JSON_stringify (VArr records)), w2) ∧
     length records = S (size (state world_init)) ∧
     decode_entry ("a1", stored w1 "a1") ∈ records) ∧
  (∃ w1 records w2,
     DeleteAsset "asset1" world_init = (Ok (), w1) ∧
     GetAllAssets w1 = (Ok (JSON_stringify (VArr records)), w2) ∧
     S (length records) = size (state world_init)).
Proof.
  split; [reflexivity|]. split; [reflexivity|]. split; [reflexivity|].
  split.
  - exact (proj1 (listing_follows_create_and_delete world_init "a1" "blue"
                    "5" "Tomoko" "300" eq_refl) eq_refl).
  - exact (proj2 (listing_follows_create_and_delete world_init "asset1"
                    "blue" "5" "Tomoko" "300" eq_refl) eq_refl).
Defined.

Lemma listing_agrees_with_reads_witness :
  ledger_ok world_init ∧ scan_fault world_init = None ∧
  ∃ r records w',
    GetAllAssets world_init = (Ok r, w') ∧
    JSON_parse r = Some (VArr records) ∧
    (∀ id, present world_init id = true →
       ∃ t v, ReadAsset id world_init = (Ok t, world_init) ∧
              JSON_parse t = Some v ∧ v ∈ records) ∧
    (∀ v, v ∈ records →
       ∃ id t, ReadAsset id world_init = (Ok t, world_init) ∧
               JSON_parse t = Some v).
Proof.
  split; [exact world_init_ledger_ok|]. split; [reflexivity|].
  exact (listing_agrees_with_reads world_init world_init_ledger_ok eq_refl).
Defined.

Lemma CreateAsset_DeleteAsset_compose_witness :
  state empty_world !! "a1" = None ∧
  ∃ r w1,
    CreateAsset "a1" "blue" "5" "Tomoko" "300" empty_world = (Ok r, w1) ∧
    DeleteAsset "a1" w1 = (Ok (), empty_world).
Proof.
  split; [reflexivity|].
  exact (proj1 (CreateAsset_DeleteAsset_compose empty_world "a1" "blue" "5"
                  "Tomoko" "300") eq_refl).
Defined.

Lemma reachable_records_keyed_witness :
  reachable world_init ∧
  (∀ id t, state world_init !! id = Some t →
     ∃ fields, JSON_parse t = Some (VObj fields) ∧ asset_fields id fields) ∧
  (∀ id newOwner, present world_init id = true →
     ∃ owner w',
       TransferAsset id newOwner world_init =
         (Ok (Some (VStr owner)), w')).
Proof.
  assert (reachable world_init) as Hr
    by exact (reach_call CallInitLedger empty_world reach_empty).
  split; [exact Hr|].
  exact (reachable_records_keyed world_init Hr).
Defined.
